(** * taichi_three/objects.py: geometric primitives of the renderer

    A shallow embedding of [objects.py]: the ray-testable batch (class
    [ObjectRT] with its only implementation [Ball]) and the screen-space
    drawable batch (class [ObjectGE] with [Line] and [Triangle]).

    Numbers.  Taichi scalars are floating-point numbers; here they are
    idealised as real numbers ([R]), so rounding, NaN and overflow are not
    part of the model; in particular the cancellation that single
    precision shows in [b ** 2 - op.norm_sqr() + self.radius ** 2] for a
    far ball is not, so nothing is stated here on how near the returned
    point is to the sphere.  A division by zero, which the source leaves to the
    caller to avoid (degenerate primitives), has the value that [R] gives
    it, [/ 0 = 0].  Integer pixel coordinates are [Z], and the image has a
    pixel at every coordinate.

    Constants.  [EPS] and [INF] are imported by the source from [.common];
    they are parameters of every definition that uses them.

    Collaborators.  The camera, the projection, the light and the material
    are fields of the record [Scene]; the image [scene.img] is threaded
    through the rendering functions as an explicit state. *)

From Stdlib Require Import Reals Lra Lia ZArith List Permutation Finite.
Import ListNotations.
Open Scope R_scope.

(** ** Vectors *)

(** A 2-component Taichi vector (screen coordinates). *)
Module Vec2.

Record t : Type := mk { x : R; y : R }.

Definition add (a b : t) : t := mk (x a + x b) (y a + y b).
Definition sub (a b : t) : t := mk (x a - x b) (y a - y b).
(** [v * s] and [s * v] for a scalar [s]. *)
Definition scale (s : R) (v : t) : t := mk (s * x v) (s * y v).
(** [v - s] and [v + s] for a scalar [s] (broadcast). *)
Definition sub_scalar (v : t) (s : R) : t := mk (x v - s) (y v - s).
Definition add_scalar (v : t) (s : R) : t := mk (x v + s) (y v + s).
(** [v.norm_sqr()] *)
Definition norm_sqr (v : t) : R := x v * x v + y v * y v.
(** [min(a, b)] and [max(a, b)] on vectors are element-wise. *)
Definition min (a b : t) : t := mk (Rmin (x a) (x b)) (Rmin (y a) (y b)).
Definition max (a b : t) : t := mk (Rmax (x a) (x b)) (Rmax (y a) (y b)).
(** An integer vector used where a float vector is expected. *)
Definition of_int (X : Z * Z) : t := mk (IZR (fst X)) (IZR (snd X)).

End Vec2.

(** A 3-component Taichi vector (positions, directions, colours). *)
Module Vec3.

Record t : Type := mk { x : R; y : R; z : R }.

Definition add (a b : t) : t := mk (x a + x b) (y a + y b) (z a + z b).
Definition sub (a b : t) : t := mk (x a - x b) (y a - y b) (z a - z b).
Definition scale (s : R) (v : t) : t := mk (s * x v) (s * y v) (s * z v).
(** [a.dot(b)] *)
Definition dot (a b : t) : R := x a * x b + y a * y b + z a * z b.
Definition norm_sqr (v : t) : R := dot v v.
(** [v.norm()] *)
Definition norm (v : t) : R := sqrt (norm_sqr v).
(** Element-wise minimum and maximum: what [ti.atomic_min] and
    [ti.atomic_max] store into a vector-valued pixel. *)
Definition min (a b : t) : t :=
  mk (Rmin (x a) (x b)) (Rmin (y a) (y b)) (Rmin (z a) (z b)).
Definition max (a b : t) : t :=
  mk (Rmax (x a) (x b)) (Rmax (y a) (y b)) (Rmax (z a) (z b)).

End Vec3.

Definition vec2 : Type := Vec2.t.
Definition vec3 : Type := Vec3.t.

(** The functions of the [taichi_glsl] library ([import taichi_glsl as ts])
    that [objects.py] calls, with their usual GLSL meaning.  Note that
    [ts.smoothstep] takes the interpolated value first and the two edges
    after it. *)
Module ts.

(** [ts.vec3(s)]: the vector with three equal components. *)
Definition vec3 (s : R) : Vec3.t := Vec3.mk s s s.
(** [ts.distance(a, b)] *)
Definition distance (a b : Vec3.t) : R := Vec3.norm (Vec3.sub a b).
(** [ts.normalize(v)]: [v] divided by its length. *)
Definition normalize (v : Vec3.t) : Vec3.t := Vec3.scale (/ Vec3.norm v) v.
(** [ts.length(v)] of a 2-vector. *)
Definition length (v : Vec2.t) : R := sqrt (Vec2.norm_sqr v).
(** [ts.dot(a, b)] of two 2-vectors. *)
Definition dot (a b : Vec2.t) : R := Vec2.x a * Vec2.x b + Vec2.y a * Vec2.y b.
(** [ts.cross(a, b)] of two 2-vectors: the scalar [a.x * b.y - a.y * b.x]. *)
Definition cross (a b : Vec2.t) : R := Vec2.x a * Vec2.y b - Vec2.y a * Vec2.x b.
(** [ts.cross(a, b)] of two 3-vectors. *)
Definition cross3 (a b : Vec3.t) : Vec3.t :=
  Vec3.mk (Vec3.y a * Vec3.z b - Vec3.z a * Vec3.y b)
          (Vec3.z a * Vec3.x b - Vec3.x a * Vec3.z b)
          (Vec3.x a * Vec3.y b - Vec3.y a * Vec3.x b).
(** [ts.clamp(x, xmin, xmax)] *)
Definition clamp (x xmin xmax : R) : R := Rmin xmax (Rmax xmin x).
(** [ts.smoothstep(x, a, b)] *)
Definition smoothstep (x a b : R) : R :=
  let t := clamp ((x - a) / (b - a)) 0 1 in
  t * t * (3 - 2 * t).

End ts.

(** ** Ray-testable objects *)

(** The two folds of class [ObjectRT].  The subclass supplies [make_one],
    [do_calc_sdf] and [do_intersect]; [shape] is the number of indices that
    [ti.grouped(ti.ndrange( *self.pos.shape()))] enumerates, in their
    iteration order (a field of several dimensions is flattened). *)
Module ObjectRT.

Section Folds.

Variable INF : R.
Variables Batch One : Type.
Variable shape : Batch -> nat.
Variable make_one : Batch -> nat -> One.
Variable do_calc_sdf : One -> vec3 -> R.
Variable do_intersect : One -> vec3 -> vec3 -> R * vec3.

(** One iteration of the loop of [calc_sdf] (line 18). *)
Definition calc_sdf_step (self : Batch) (p : vec3) (ret : R) (I : nat) : R :=
  Rmin ret (do_calc_sdf (make_one self I) p).

(** [ObjectRT.calc_sdf] (lines 14-19). *)
Definition calc_sdf (self : Batch) (p : vec3) : R :=
  fold_left (calc_sdf_step self p) (seq 0 (shape self)) INF.

(** One iteration of the loop of [intersect] (lines 25-27). *)
Definition intersect_step (self : Batch) (orig dir : vec3)
    (acc : R * vec3) (I : nat) : R * vec3 :=
  let '(ret, normal) := acc in
  let '(t, n) := do_intersect (make_one self I) orig dir in
  if Rlt_dec t ret then (t, n) else (ret, normal).

(** [ObjectRT.intersect] (lines 21-28). *)
Definition intersect (self : Batch) (orig dir : vec3) : R * vec3 :=
  fold_left (intersect_step self orig dir) (seq 0 (shape self))
            (INF, ts.vec3 0).

End Folds.

Arguments calc_sdf INF {Batch One} shape make_one do_calc_sdf self p.
Arguments intersect INF {Batch One} shape make_one do_intersect self orig dir.
Arguments calc_sdf_step {Batch One} make_one do_calc_sdf self p ret I.
Arguments intersect_step {Batch One} make_one do_intersect self orig dir acc I.

End ObjectRT.

(** Class [Ball]: a batch holds the arrays [pos] and [radius]; [make_one]
    builds the single ball at one index. *)
Module Ball.

(** A single ball, as [make_one] returns it. *)
Record t : Type := mk { pos : vec3; radius : R }.

(** A batch of balls: the two fields of the object as arrays.  An index
    outside an array reads the zero element. *)
Record batch : Type := mk_batch { pos_arr : list vec3; radius_arr : list R }.

(** The number of indices of [self.pos.shape()]. *)
Definition shape (self : batch) : nat := List.length (pos_arr self).

(** [Ball.make_one] (lines 43-45). *)
Definition make_one (self : batch) (I : nat) : t :=
  mk (nth I (pos_arr self) (ts.vec3 0)) (nth I (radius_arr self) 0).

(** [Ball.do_calc_sdf] (lines 47-49). *)
Definition do_calc_sdf (self : t) (p : vec3) : R :=
  ts.distance (pos self) p - radius self.

Section Intersect.

Variables EPS INF : R.

(** The distance that [Ball.do_intersect] computes (lines 53-65). *)
Definition hit_distance (self : t) (orig dir : vec3) : R :=
  let op := Vec3.sub (pos self) orig in
  let b := Vec3.dot op dir in
  let det := b ^ 2 - Vec3.norm_sqr op + radius self ^ 2 in
  if Rlt_dec 0 det then
    let det := sqrt det in
    let t := b - det in
    if Rlt_dec EPS t then t
    else
      let t := b + det in
      if Rlt_dec EPS t then t else INF
  else INF.

(** [Ball.do_intersect] (lines 51-66): the distance and the normal, the
    latter computed whatever the distance is. *)
Definition do_intersect (self : t) (orig dir : vec3) : R * vec3 :=
  let op := Vec3.sub (pos self) orig in
  let ret := hit_distance self orig dir in
  (ret, ts.normalize (Vec3.sub (Vec3.scale ret dir) op)).

(** [calc_sdf] and [intersect] as a batch of balls inherits them. *)
Definition calc_sdf (self : batch) (p : vec3) : R :=
  ObjectRT.calc_sdf INF shape make_one do_calc_sdf self p.

Definition intersect (self : batch) (orig dir : vec3) : R * vec3 :=
  ObjectRT.intersect INF shape make_one do_intersect self orig dir.

End Intersect.

End Ball.

(** ** Screen-space drawable objects *)

(** The target image [scene.img]: a colour for every integer pixel
    coordinate. *)
Module Image.

Definition pixel : Type := (Z * Z)%type.
Definition t : Type := pixel -> vec3.

Definition pixel_eqb (X Y : pixel) : bool :=
  (Z.eqb (fst X) (fst Y) && Z.eqb (snd X) (snd Y))%bool.

(** [img[X] = v] *)
Definition set (img : t) (X : pixel) (v : vec3) : t :=
  fun Y => if pixel_eqb X Y then v else img Y.

(** [ti.atomic_min(img[X], v)] and [ti.atomic_max(img[X], v)]: the pixel
    becomes the element-wise minimum (maximum) of its value and [v]. *)
Definition atomic_min (img : t) (X : pixel) (v : vec3) : t :=
  set img X (Vec3.min (img X) v).
Definition atomic_max (img : t) (X : pixel) (v : vec3) : t :=
  set img X (Vec3.max (img X) v).

(** Two images are the same when every pixel is. *)
Definition same (i j : t) : Prop := forall X, i X = j X.

End Image.

(** What the drawing code reads from [scene]: the camera
    ([scene.camera.untrans_pos], [scene.camera.untrans_dir]), the projection
    to pixel coordinates ([scene.uncook_coor]), the light
    ([scene.light_dir[None]]) and the material ([scene.opt.render_func],
    [scene.opt.pre_process]).  None of them is defined in [objects.py]. *)
Record Scene : Type := mkScene {
  untrans_pos : vec3 -> vec3;
  untrans_dir : vec3 -> vec3;
  uncook_coor : vec3 -> vec2;
  light_dir : vec3;
  render_func : vec3 -> vec3 -> vec3 -> vec3 -> vec3;
  pre_process : vec3 -> vec3
}.

(** [int(ti.floor(r))] and [int(ti.ceil(r))] *)
Definition ifloor (r : R) : Z := Int_part r.
Definition iceil (r : R) : Z := (- Int_part (- r))%Z.
Definition ifloor2 (v : vec2) : Z * Z := (ifloor (Vec2.x v), ifloor (Vec2.y v)).
Definition iceil2 (v : vec2) : Z * Z := (iceil (Vec2.x v), iceil (Vec2.y v)).

(** The integers [lo, lo + 1, ..., hi - 1]. *)
Definition range (lo hi : Z) : list Z :=
  map (fun i => (lo + Z.of_nat i)%Z) (seq 0 (Z.to_nat (hi - lo))).

(** [ti.grouped(ti.ndrange((M.x, N.x), (M.y, N.y)))]: the pixels of the
    rectangle, the first coordinate outermost. *)
Definition ndrange2 (M N : Z * Z) : list Image.pixel :=
  flat_map (fun x => map (fun y => (x, y)) (range (snd M) (snd N)))
           (range (fst M) (fst N)).

(** The two loops of class [ObjectGE] over the instances of a batch. *)
Module ObjectGE.

Section Loops.

Variables Batch One : Type.
Variable shape : Batch -> nat.
Variable make_one : Batch -> nat -> One.
Variable do_render : One -> Scene -> Image.t -> Image.t.
Variable do_render_stroke : One -> Scene -> Image.t -> Image.t.

(** [ObjectGE.render] (lines 71-74). *)
Definition render (self : Batch) (scene : Scene) (img : Image.t) : Image.t :=
  fold_left (fun img I => do_render (make_one self I) scene img)
            (seq 0 (shape self)) img.

(** [ObjectGE.render_stroke] (lines 76-79). *)
Definition render_stroke (self : Batch) (scene : Scene) (img : Image.t)
    : Image.t :=
  fold_left (fun img I => do_render_stroke (make_one self I) scene img)
            (seq 0 (shape self)) img.

End Loops.

Arguments render {Batch One} shape make_one do_render self scene img.
Arguments render_stroke {Batch One} shape make_one do_render_stroke
  self scene img.

End ObjectGE.

(** Class [Line]. *)
Module Line.

(** A single segment with its two end points. *)
Record t : Type := mk { a : vec3; b : vec3 }.

Record batch : Type := mk_batch { a_arr : list vec3; b_arr : list vec3 }.

(** The number of indices of [self.a.shape()]. *)
Definition shape (self : batch) : nat := List.length (a_arr self).

(** [Line.make_one] (lines 94-96). *)
Definition make_one (self : batch) (I : nat) : t :=
  mk (nth I (a_arr self) (ts.vec3 0)) (nth I (b_arr self) (ts.vec3 0)).

(** The half width [W = 1] of a stroke (line 100). *)
Definition W : R := 1.

(** The value [udf] of one pixel [X] for the projected end points [A] and
    [B] (lines 105-112). *)
Definition udf (A B : vec2) (X : Image.pixel) : R :=
  let X := Vec2.of_int X in
  let P := Vec2.sub B A in
  let udf := (ts.cross X P + ts.cross B A) ^ 2 / Vec2.norm_sqr P in
  let XoP := ts.dot X P in
  let AoB := ts.dot A B in
  if Rlt_dec (Vec2.norm_sqr B - AoB) XoP then
    Vec2.norm_sqr (Vec2.sub B X)
  else if Rlt_dec XoP (AoB - Vec2.norm_sqr A) then
    Vec2.norm_sqr (Vec2.sub A X)
  else udf.

(** The body of the pixel loop (lines 105-117). *)
Definition do_pixel (A B : vec2) (img : Image.t) (X : Image.pixel) : Image.t :=
  let udf := udf A B X in
  if Rlt_dec udf 0 then
    Image.set img X (ts.vec3 1)
  else if Rlt_dec udf (W ^ 2) then
    let t := ts.smoothstep udf 0 (W ^ 2) in
    Image.atomic_min img X (ts.vec3 t)
  else img.

(** The pixels that the loop of line 104 visits, in its order. *)
Definition scan (A B : vec2) : list Image.pixel :=
  let M := ifloor2 (Vec2.sub_scalar (Vec2.min A B) W) in
  let N := iceil2 (Vec2.add_scalar (Vec2.max A B) W) in
  ndrange2 M N.

(** [Line.do_render] (lines 98-117). *)
Definition do_render (self : t) (scene : Scene) (img : Image.t) : Image.t :=
  let A := uncook_coor scene (untrans_pos scene (a self)) in
  let B := uncook_coor scene (untrans_pos scene (b self)) in
  fold_left (do_pixel A B) (scan A B) img.

(** [render] as a batch of lines inherits it. *)
Definition render (self : batch) (scene : Scene) (img : Image.t) : Image.t :=
  ObjectGE.render shape make_one do_render self scene img.

End Line.

(** Class [Triangle]. *)
Module Triangle.

Record t : Type := mk { a : vec3; b : vec3; c : vec3 }.

Record batch : Type :=
  mk_batch { a_arr : list vec3; b_arr : list vec3; c_arr : list vec3 }.

Definition shape (self : batch) : nat := List.length (a_arr self).

(** [Triangle.make_one] (lines 127-129). *)
Definition make_one (self : batch) (I : nat) : t :=
  mk (nth I (a_arr self) (ts.vec3 0)) (nth I (b_arr self) (ts.vec3 0))
     (nth I (c_arr self) (ts.vec3 0)).

(** [Triangle.to_lines] (lines 131-132). *)
Definition to_lines (self : t) : Line.t * Line.t * Line.t :=
  (Line.mk (b self) (c self), Line.mk (c self) (a self),
   Line.mk (a self) (b self)).

(** [Triangle.do_render_stroke] (lines 134-139). *)
Definition do_render_stroke (self : t) (scene : Scene) (img : Image.t)
    : Image.t :=
  let '(A, B, C) := to_lines self in
  let img := Line.do_render A scene img in
  let img := Line.do_render B scene img in
  Line.do_render C scene img.

(** The width [W = 0.4] of the band outside the edges (line 168). *)
Definition W : R := 4 / 10.

(** The three edge functions [AB], [BC] and [CA] of one pixel [X] for the
    projected corners (lines 149-160 and 171-173). *)
Definition edge_functions (A B C : vec2) (X : Image.pixel) : R * R * R :=
  let X := Vec2.of_int X in
  let B_A := Vec2.sub B A in
  let C_B := Vec2.sub C B in
  let A_C := Vec2.sub A C in
  let ilB_A := 1 / ts.length B_A in
  let ilC_B := 1 / ts.length C_B in
  let ilA_C := 1 / ts.length A_C in
  let B_A := Vec2.scale ilB_A B_A in
  let C_B := Vec2.scale ilC_B C_B in
  let A_C := Vec2.scale ilA_C A_C in
  let BxA := ts.cross B A * ilB_A in
  let CxB := ts.cross C B * ilC_B in
  let AxC := ts.cross A C * ilA_C in
  let AB := ts.cross X B_A + BxA in
  let BC := ts.cross X C_B + CxB in
  let CA := ts.cross X A_C + AxC in
  (AB, BC, CA).

(** [udf = max(AB, BC, CA)] (line 174). *)
Definition udf (A B C : vec2) (X : Image.pixel) : R :=
  let '(AB, BC, CA) := edge_functions A B C X in
  Rmax (Rmax AB BC) CA.

(** The colour of the whole triangle (lines 143-145 and 161-166). *)
Definition flat_color (self : t) (scene : Scene) : vec3 :=
  let a := untrans_pos scene (a self) in
  let b := untrans_pos scene (b self) in
  let c := untrans_pos scene (c self) in
  let normal := ts.normalize (ts.cross3 (Vec3.sub a c) (Vec3.sub a b)) in
  let light_dir := untrans_dir scene (light_dir scene) in
  let pos := Vec3.scale (1 / 3) (Vec3.add (Vec3.add a b) c) in
  let dir := ts.vec3 0 in
  let color := render_func scene pos normal dir light_dir in
  pre_process scene color.

(** The body of the pixel loop (lines 171-179). *)
Definition do_pixel (A B C : vec2) (color : vec3) (img : Image.t)
    (X : Image.pixel) : Image.t :=
  let udf := udf A B C X in
  if Rlt_dec udf 0 then
    Image.set img X color
  else if Rlt_dec udf W then
    let t := ts.smoothstep udf W 0 in
    Image.atomic_max img X (Vec3.scale t color)
  else img.

(** The pixels that the loop of line 170 visits, in its order. *)
Definition scan (A B C : vec2) : list Image.pixel :=
  let M := ifloor2 (Vec2.sub_scalar (Vec2.min (Vec2.min A B) C) W) in
  let N := iceil2 (Vec2.add_scalar (Vec2.max (Vec2.max A B) C) W) in
  ndrange2 M N.

(** [Triangle.do_render] (lines 141-179). *)
Definition do_render (self : t) (scene : Scene) (img : Image.t) : Image.t :=
  let A := uncook_coor scene (untrans_pos scene (a self)) in
  let B := uncook_coor scene (untrans_pos scene (b self)) in
  let C := uncook_coor scene (untrans_pos scene (c self)) in
  let color := flat_color self scene in
  fold_left (do_pixel A B C color) (scan A B C) img.

Definition render (self : batch) (scene : Scene) (img : Image.t) : Image.t :=
  ObjectGE.render shape make_one do_render self scene img.

Definition render_stroke (self : batch) (scene : Scene) (img : Image.t)
    : Image.t :=
  ObjectGE.render_stroke shape make_one do_render_stroke self scene img.

End Triangle.

(** ** The properties, as the specification words them *)
Module Spec.

(** [m] is the minimum of the values of [l]. *)
Definition is_minimum (m : R) (l : list R) : Prop :=
  In m l /\ forall x, In x l -> m <= x.

(** The signed distance of one ball from [p]: [|pos - p| - radius], with
    the Euclidean length written out. *)
Definition ball_sdf (self : Ball.t) (p : vec3) : R :=
  let c := Ball.pos self in
  sqrt ((Vec3.x c - Vec3.x p) * (Vec3.x c - Vec3.x p)
        + (Vec3.y c - Vec3.y p) * (Vec3.y c - Vec3.y p)
        + (Vec3.z c - Vec3.z p) * (Vec3.z c - Vec3.z p))
  - Ball.radius self.

(** The signed distances of all instances of a batch, in index order. *)
Definition instance_sdfs (self : Ball.batch) (p : vec3) : list R :=
  map (fun I => ball_sdf (Ball.make_one self I) p) (seq 0 (Ball.shape self)).

(** [op = pos - orig], [b = op . dir] and [det = b^2 - |op|^2 + radius^2]
    of the ray/sphere quadratic. *)
Definition op (self : Ball.t) (orig : vec3) : vec3 :=
  Vec3.sub (Ball.pos self) orig.
Definition b (self : Ball.t) (orig dir : vec3) : R :=
  Vec3.dot (op self orig) dir.
Definition det (self : Ball.t) (orig dir : vec3) : R :=
  b self orig dir ^ 2 - Vec3.norm_sqr (op self orig) + Ball.radius self ^ 2.
Definition near_root (self : Ball.t) (orig dir : vec3) : R :=
  b self orig dir - sqrt (det self orig dir).
Definition far_root (self : Ball.t) (orig dir : vec3) : R :=
  b self orig dir + sqrt (det self orig dir).

(** The distance of one ball as the specification lists the cases: no hit
    if [det <= 0]; else the near root if it is above [EPS]; else the far
    root if it is above [EPS]; else no hit. *)
Definition hit_distance (EPS INF : R) (self : Ball.t) (orig dir : vec3) : R :=
  if Rle_dec (det self orig dir) 0 then INF
  else if Rlt_dec EPS (near_root self orig dir) then near_root self orig dir
  else if Rlt_dec EPS (far_root self orig dir) then far_root self orig dir
  else INF.

(** The quadratic of the instance has a positive discriminant and a root
    above [EPS]. *)
Definition has_root (EPS : R) (self : Ball.t) (orig dir : vec3) : Prop :=
  0 < det self orig dir
  /\ (EPS < near_root self orig dir \/ EPS < far_root self orig dir).

(** [t] is the root that the instance accepts: the near root when it is
    above [EPS], otherwise the far root when that is above [EPS]. *)
Definition accepted_root (EPS : R) (self : Ball.t) (orig dir : vec3) (t : R)
    : Prop :=
  0 < det self orig dir
  /\ ((t = near_root self orig dir /\ EPS < t)
      \/ (t = far_root self orig dir
          /\ ~ EPS < near_root self orig dir /\ EPS < t)).

(** [t] is the least accepted root over the instances of the batch. *)
Definition minimal_accepted_root (EPS : R) (self : Ball.batch)
    (orig dir : vec3) (t : R) : Prop :=
  (exists I, (I < Ball.shape self)%nat
             /\ accepted_root EPS (Ball.make_one self I) orig dir t)
  /\ forall J t', (J < Ball.shape self)%nat ->
                  accepted_root EPS (Ball.make_one self J) orig dir t' ->
                  t <= t'.

(** The reading of the normal that the specification gives: the vector
    [op] under [normalize(dir * t - op)] is fixed by the batch and the
    origin of the ray, whichever instance wins. *)
Definition batch_level_normal (EPS INF : R) : Prop :=
  exists opB : Ball.batch -> vec3 -> vec3,
    forall (self : Ball.batch) (orig dir : vec3),
      fst (Ball.intersect EPS INF self orig dir) < INF ->
      snd (Ball.intersect EPS INF self orig dir)
      = ts.normalize
          (Vec3.sub (Vec3.scale (fst (Ball.intersect EPS INF self orig dir)) dir)
                    (opB self orig)).

(** The point of the segment [AB] at parameter [s]. *)
Definition segment_point (A B : vec2) (s : R) : vec2 :=
  Vec2.add A (Vec2.scale s (Vec2.sub B A)).

(** [d] is the squared Euclidean distance from [X] to the segment [AB]:
    some point of the segment is at squared distance [d] from [X], and no
    point of the segment is nearer. *)
Definition sq_distance_to_segment (A B X : vec2) (d : R) : Prop :=
  (exists s, 0 <= s <= 1
             /\ Vec2.norm_sqr (Vec2.sub (segment_point A B s) X) = d)
  /\ forall s, 0 <= s <= 1 ->
               d <= Vec2.norm_sqr (Vec2.sub (segment_point A B s) X).

(** The value of a pixel of the scan of a line after the line was drawn, from
    its value [old] before: white if [udf < 0]; else, if [udf < W^2], the
    element-wise minimum of [old] and [vec3(t)] with
    [t = smoothstep(udf, 0, W^2)]; else [old]. *)
Definition line_pixel_value (A B : vec2) (X : Image.pixel) (old : vec3)
    : vec3 :=
  let udf := Line.udf A B X in
  if Rlt_dec udf 0 then ts.vec3 1
  else if Rlt_dec udf (Line.W ^ 2) then
    Vec3.min old (ts.vec3 (ts.smoothstep udf 0 (Line.W ^ 2)))
  else old.

(** The value of a pixel of the scan of a triangle after the triangle was
    drawn: the flat colour if [udf < 0]; else, if [udf < W], the
    element-wise maximum of [old] and [smoothstep(udf, W, 0) * color]; else
    [old]. *)
Definition triangle_pixel_value (A B C : vec2) (color : vec3)
    (X : Image.pixel) (old : vec3) : vec3 :=
  let udf := Triangle.udf A B C X in
  if Rlt_dec udf 0 then color
  else if Rlt_dec udf Triangle.W then
    Vec3.max old (Vec3.scale (ts.smoothstep udf Triangle.W 0) color)
  else old.

(** Whether the pixel loop of a line (of a triangle) visits [X]. *)
Definition line_visits (scene : Scene) (l : Line.t) (X : Image.pixel) : bool :=
  let A := uncook_coor scene (untrans_pos scene (Line.a l)) in
  let B := uncook_coor scene (untrans_pos scene (Line.b l)) in
  existsb (Image.pixel_eqb X) (Line.scan A B).

Definition triangle_visits (scene : Scene) (t : Triangle.t) (X : Image.pixel)
    : bool :=
  let A := uncook_coor scene (untrans_pos scene (Triangle.a t)) in
  let B := uncook_coor scene (untrans_pos scene (Triangle.b t)) in
  let C := uncook_coor scene (untrans_pos scene (Triangle.c t)) in
  existsb (Image.pixel_eqb X) (Triangle.scan A B C).

(** [X] lies strictly inside the projected triangle: [udf < 0]. *)
Definition triangle_interior (scene : Scene) (t : Triangle.t)
    (X : Image.pixel) : Prop :=
  let A := uncook_coor scene (untrans_pos scene (Triangle.a t)) in
  let B := uncook_coor scene (untrans_pos scene (Triangle.b t)) in
  let C := uncook_coor scene (untrans_pos scene (Triangle.c t)) in
  Triangle.udf A B C X < 0.






(** Rendering the lines of [ls] one after the other. *)
Definition render_lines (scene : Scene) (ls : list Line.t) (img : Image.t)
    : Image.t :=
  fold_left (fun img l => Line.do_render l scene img) ls img.

End Spec.

(** ** Concrete inputs *)
Module Examples.

(** Sample values of the two constants of [.common]: a small positive
    threshold and a large finite sentinel. *)
Definition EPS : R := 1 / 1000.
Definition INF : R := 1000.

Definition origin : vec3 := Vec3.mk 0 0 0.
Definition x_axis : vec3 := Vec3.mk 1 0 0.
Definition y_axis : vec3 := Vec3.mk 0 1 0.
Definition z_axis : vec3 := Vec3.mk 0 0 1.

(** One unit ball on the z axis, farther away than [INF]. *)
Definition far_ball : Ball.batch :=
  Ball.mk_batch [Vec3.mk 0 0 2000] [1].

(** Two unit balls at distance 5 from the origin, one on the z axis and one
    on the x axis. *)
Definition two_balls : Ball.batch :=
  Ball.mk_batch [Vec3.mk 0 0 5; Vec3.mk 5 0 0] [1; 1].

(** A unit ball that the ray from the origin along the z axis touches in one
    point. *)
Definition tangent_ball : Ball.t := Ball.mk (Vec3.mk 1 0 5) 1.

(** A scene with the identity camera, the projection that drops the depth,
    and a material that shades a point by its depth alone. *)
Definition scene : Scene :=
  mkScene (fun v => v) (fun v => v)
          (fun v => Vec2.mk (Vec3.x v) (Vec3.y v))
          (Vec3.mk 0 0 1)
          (fun pos normal dir light_dir => ts.vec3 (Vec3.z pos))
          (fun color => color).

(** An image that is black everywhere. *)
Definition black : Image.t := fun _ => ts.vec3 0.

Definition bright_triangle : Triangle.t :=
  Triangle.mk (Vec3.mk 0 0 1) (Vec3.mk 10 0 1) (Vec3.mk 0 10 1).

(** The triangle at depth 1 with two corners exchanged: seen from the
    back. *)
Definition back_triangle : Triangle.t :=
  Triangle.mk (Vec3.mk 0 0 1) (Vec3.mk 0 10 1) (Vec3.mk 10 0 1).

Definition bright_batch : Triangle.batch :=
  Triangle.mk_batch [Vec3.mk 0 0 1] [Vec3.mk 10 0 1] [Vec3.mk 0 10 1].

(** A horizontal segment from [(0,0)] to [(10,0)], and a vertical one
    from [(5,-5)] to [(5,5)] that crosses it. *)
Definition segment : Line.t := Line.mk (Vec3.mk 0 0 0) (Vec3.mk 10 0 0).
Definition crossing_segment : Line.t :=
  Line.mk (Vec3.mk 5 (-5) 0) (Vec3.mk 5 5 0).

(** For any value of the sentinel, a unit ball on the x axis (on the z axis)
    that is farther away than the sentinel. *)
Definition ball_beyond (INF : R) : Ball.batch :=
  Ball.mk_batch [Vec3.mk (Rabs INF + 2) 0 0] [1].
Definition ball_ahead (EPS INF : R) : Ball.batch :=
  Ball.mk_batch [Vec3.mk 0 0 (Rabs INF + Rabs EPS + 2)] [1].

End Examples.

(** Bounds between concrete numbers, minima and maxima included. *)
Ltac concrete_bounds :=
  unfold Line.W, Triangle.W; simpl; unfold Rmin, Rmax;
  repeat destruct (Rle_dec _ _); lra.

(** ** Geometric notions used to state what the code computes *)
Module Geometry.

(** [q] lies on the surface of the ball. *)
Definition on_sphere (self : Ball.t) (q : vec3) : Prop :=
  Vec3.norm_sqr (Vec3.sub q (Ball.pos self)) = Ball.radius self ^ 2.

(** [q] lies strictly inside the ball. *)
Definition inside_sphere (self : Ball.t) (q : vec3) : Prop :=
  Vec3.norm_sqr (Vec3.sub q (Ball.pos self)) < Ball.radius self ^ 2.

(** Every channel of [u] is at most the same channel of [v]. *)
Definition channels_le (u v : vec3) : Prop :=
  Vec3.x u <= Vec3.x v /\ Vec3.y u <= Vec3.y v /\ Vec3.z u <= Vec3.z v.

(** Every channel of [u] lies between 0 and 1. *)
Definition channels_in_unit (u : vec3) : Prop :=
  channels_le (ts.vec3 0) u /\ channels_le u (ts.vec3 1).

(** Twice the signed area of the screen triangle [ABC]:
    [cross(B - A, C - A)]. *)
Definition area2 (A B C : vec2) : R :=
  ts.cross (Vec2.sub B A) (Vec2.sub C A).

(** The point [A + beta * (B - A) + gamma * (C - A)] of the plane of the
    triangle. *)
Definition combination (A B C : vec2) (beta gamma : R) : vec2 :=
  Vec2.add (Vec2.add A (Vec2.scale beta (Vec2.sub B A)))
           (Vec2.scale gamma (Vec2.sub C A)).

(** The three edges of a triangle as a list, in the order in which
    [do_render_stroke] draws them. *)
Definition edges (self : Triangle.t) : list Line.t :=
  let '(A, B, C) := Triangle.to_lines self in [A; B; C].

(** All the edges of a batch of triangles, in the order in which
    [render_stroke] draws them. *)
Definition batch_edges (self : Triangle.batch) : list Line.t :=
  flat_map (fun I => edges (Triangle.make_one self I))
           (seq 0 (Triangle.shape self)).

End Geometry.

(** ** The folds of [ObjectRT] *)

Section ObjectRT_facts.

Variable INF : R.
Variables Batch One : Type.
Variable shape : Batch -> nat.
Variable make_one : Batch -> nat -> One.
Variable do_calc_sdf : One -> vec3 -> R.
Variable do_intersect : One -> vec3 -> vec3 -> R * vec3.

(** A running minimum ends at the minimum of its start value and of all
    the values it met. *)
Lemma fold_Rmin_is_minimum (f : nat -> R) (l : list nat) (init : R) :
  Spec.is_minimum (fold_left (fun r I => Rmin r (f I)) l init)
                  (init :: map f l).
Proof.
  revert init; induction l as [|I l IH]; intros init; simpl.
  - split; [now left | intros x [<- | []]; lra].
  - destruct (IH (Rmin init (f I))) as [Hin Hle]; split.
    + destruct Hin as [Heq | Hin].
      * rewrite <- Heq. unfold Rmin; destruct (Rle_dec init (f I)); simpl; auto.
      * now right; right.
    + intros x Hx.
      assert (Hm : fold_left (fun r J => Rmin r (f J)) l (Rmin init (f I))
                   <= Rmin init (f I)) by (apply Hle; now left).
      destruct Hx as [<- | [<- | Hx]].
      * pose proof (Rmin_l init (f I)); lra.
      * pose proof (Rmin_r init (f I)); lra.
      * apply Hle; now right.
Qed.

Lemma calc_sdf_is_minimum (self : Batch) (p : vec3) :
  Spec.is_minimum
    (ObjectRT.calc_sdf INF shape make_one do_calc_sdf self p)
    (INF :: map (fun I => do_calc_sdf (make_one self I) p)
                (seq 0 (shape self))).
Proof. apply fold_Rmin_is_minimum. Qed.

(** One iteration keeps the accumulator unless the instance is strictly
    nearer. *)
Lemma intersect_step_unfold (self : Batch) (orig dir : vec3)
    (acc : R * vec3) (I : nat) :
  ObjectRT.intersect_step make_one do_intersect self orig dir acc I
  = if Rlt_dec (fst (do_intersect (make_one self I) orig dir)) (fst acc)
    then do_intersect (make_one self I) orig dir else acc.
Proof.
  unfold ObjectRT.intersect_step.
  destruct acc as [ret normal];
    destruct (do_intersect (make_one self I) orig dir) as [t n]; simpl.
  destruct (Rlt_dec t ret); reflexivity.
Qed.

(** The loop of [intersect] after the first [n] instances: either nothing
    was below [INF] and the accumulator is untouched, or it holds the
    result of the first instance that attains the least distance. *)
Lemma intersect_prefix (self : Batch) (orig dir : vec3) (n : nat) :
  let hit := fun I => do_intersect (make_one self I) orig dir in
  let r := fold_left (ObjectRT.intersect_step make_one do_intersect
                        self orig dir)
                     (seq 0 n) (INF, ts.vec3 0) in
  (r = (INF, ts.vec3 0) /\ forall J, (J < n)%nat -> INF <= fst (hit J))
  \/ (exists K, (K < n)%nat /\ r = hit K /\ fst r < INF
                /\ (forall J, (J < K)%nat -> fst r < fst (hit J))
                /\ (forall J, (J < n)%nat -> fst r <= fst (hit J))).
Proof.
  intros hit; induction n as [|n IH].
  - left; split; [reflexivity | intros J HJ; lia].
  - rewrite seq_S, fold_left_app; simpl.
    rewrite intersect_step_unfold. fold (hit n).
    remember (fold_left _ (seq 0 n) _) as acc eqn:Eacc.
    simpl in IH. clear Eacc.
    assert (Hsplit : forall J, (J < S n)%nat -> (J < n)%nat \/ J = n)
      by (intros; lia).
    destruct IH as [[-> Hall] | (K & HK & -> & Hlt & Hbefore & Hle)]; simpl.
    + destruct (Rlt_dec (fst (hit n)) INF) as [Ht | Ht].
      * right; exists n; repeat split; auto.
        -- intros J HJ; specialize (Hall J HJ); lra.
        -- intros J HJ; destruct (Hsplit J HJ) as [HJ' | ->]; [|lra].
           specialize (Hall J HJ'); lra.
      * left; split; [reflexivity|].
        intros J HJ; destruct (Hsplit J HJ) as [HJ' | ->]; [auto | lra].
    + destruct (Rlt_dec (fst (hit n)) (fst (hit K))) as [Ht | Ht].
      * right; exists n; repeat split; auto.
        -- lra.
        -- intros J HJ; specialize (Hle J HJ); lra.
        -- intros J HJ; destruct (Hsplit J HJ) as [HJ' | ->]; [|lra].
           specialize (Hle J HJ'); lra.
      * right; exists K; repeat split; auto.
        intros J HJ; destruct (Hsplit J HJ) as [HJ' | ->]; [auto | lra].
Qed.

End ObjectRT_facts.

(** ** Balls *)

Lemma do_calc_sdf_spec (self : Ball.t) (p : vec3) :
  Ball.do_calc_sdf self p = Spec.ball_sdf self p.
Proof. reflexivity. Qed.

Lemma hit_distance_spec (EPS INF : R) (self : Ball.t) (orig dir : vec3) :
  Ball.hit_distance EPS INF self orig dir
  = Spec.hit_distance EPS INF self orig dir.
Proof.
  unfold Ball.hit_distance, Spec.hit_distance, Spec.near_root, Spec.far_root.
  change (Vec3.dot (Vec3.sub (Ball.pos self) orig) dir ^ 2
          - Vec3.norm_sqr (Vec3.sub (Ball.pos self) orig)
          + Ball.radius self ^ 2) with (Spec.det self orig dir).
  change (Vec3.dot (Vec3.sub (Ball.pos self) orig) dir)
    with (Spec.b self orig dir).
  cbv zeta.
  destruct (Rlt_dec 0 (Spec.det self orig dir)) as [Hd | Hd];
    destruct (Rle_dec (Spec.det self orig dir) 0) as [Hd' | Hd'];
    try lra; reflexivity.
Qed.

(** The distance of an instance is its accepted root, or [INF] when the
    quadratic has no root above [EPS]. *)
Lemma hit_distance_cases (EPS INF : R) (self : Ball.t) (orig dir : vec3) :
  Spec.accepted_root EPS self orig dir (Ball.hit_distance EPS INF self orig dir)
  \/ (~ Spec.has_root EPS self orig dir
      /\ Ball.hit_distance EPS INF self orig dir = INF).
Proof.
  rewrite hit_distance_spec.
  unfold Spec.hit_distance, Spec.accepted_root, Spec.has_root.
  destruct (Rle_dec (Spec.det self orig dir) 0) as [Hd | Hd].
  - right; split; [lra | reflexivity].
  - destruct (Rlt_dec EPS (Spec.near_root self orig dir)) as [Hn | Hn].
    + left; split; [lra | left; auto].
    + destruct (Rlt_dec EPS (Spec.far_root self orig dir)) as [Hf | Hf].
      * left; split; [lra | right; auto].
      * right; split; [tauto | reflexivity].
Qed.

Lemma accepted_root_hit_distance (EPS INF : R) (self : Ball.t)
    (orig dir : vec3) (t : R) :
  Spec.accepted_root EPS self orig dir t ->
  Ball.hit_distance EPS INF self orig dir = t.
Proof.
  rewrite hit_distance_spec.
  unfold Spec.hit_distance, Spec.accepted_root.
  intros [Hd [[-> Hn] | (-> & Hn & Hf)]];
    destruct (Rle_dec (Spec.det self orig dir) 0); try lra;
    destruct (Rlt_dec EPS (Spec.near_root self orig dir)); try tauto;
    destruct (Rlt_dec EPS (Spec.far_root self orig dir)); tauto.
Qed.

Lemma accepted_root_unique (EPS : R) (self : Ball.t) (orig dir : vec3)
    (t t' : R) :
  Spec.accepted_root EPS self orig dir t ->
  Spec.accepted_root EPS self orig dir t' -> t = t'.
Proof.
  intros H H'.
  rewrite <- (accepted_root_hit_distance EPS 0 _ _ _ _ H).
  now rewrite <- (accepted_root_hit_distance EPS 0 _ _ _ _ H').
Qed.

Lemma accepted_root_has_root (EPS : R) (self : Ball.t) (orig dir : vec3)
    (t : R) :
  Spec.accepted_root EPS self orig dir t -> Spec.has_root EPS self orig dir.
Proof.
  unfold Spec.accepted_root, Spec.has_root.
  intros [Hd [[-> Hn] | (-> & Hn & Hf)]]; auto.
Qed.

Lemma instance_sdfs_map (self : Ball.batch) (p : vec3) :
  Spec.instance_sdfs self p
  = map (fun I => Ball.do_calc_sdf (Ball.make_one self I) p)
        (seq 0 (Ball.shape self)).
Proof. reflexivity. Qed.

(** When some instance is no farther than [INF], the fold of [calc_sdf]
    ends at the least instance distance. *)
Lemma calc_sdf_min_when_within_INF (INF : R) (self : Ball.batch) (p : vec3) :
  (exists d, In d (Spec.instance_sdfs self p) /\ d <= INF) ->
  Spec.is_minimum (Ball.calc_sdf INF self p) (Spec.instance_sdfs self p).
Proof.
  intros (d & Hd & Hle).
  destruct (calc_sdf_is_minimum INF _ _ Ball.shape Ball.make_one
              Ball.do_calc_sdf self p) as [Hin Hmin].
  fold (Ball.calc_sdf INF self p) in Hin, Hmin.
  rewrite <- instance_sdfs_map in Hin, Hmin.
  split; [| intros x Hx; apply Hmin; now right].
  destruct Hin as [Heq | Hin]; [| exact Hin].
  assert (Ball.calc_sdf INF self p <= d) by (apply Hmin; now right).
  replace (Ball.calc_sdf INF self p) with d by lra. exact Hd.
Qed.

(** C1 (as amended).  For every batch of balls and every point [p],
    [calc_sdf] returns the minimum of the sentinel [INF] and of the signed
    distances [|pos_i - p| - radius_i] of all instances; it is the minimum
    over the instances themselves whenever some instance is no farther than
    [INF]. *)
Theorem calc_sdf_minimum_capped_by_INF :
  forall (INF : R) (self : Ball.batch) (p : vec3),
    Spec.is_minimum (Ball.calc_sdf INF self p)
                    (INF :: Spec.instance_sdfs self p)
    /\ ((exists d, In d (Spec.instance_sdfs self p) /\ d <= INF) ->
        Spec.is_minimum (Ball.calc_sdf INF self p)
                        (Spec.instance_sdfs self p)).
Proof.
  intros INF self p; split.
  - rewrite instance_sdfs_map.
    apply (calc_sdf_is_minimum INF _ _ Ball.shape Ball.make_one).
  - apply calc_sdf_min_when_within_INF.
Qed.

Lemma far_ball_sdf :
  Spec.instance_sdfs Examples.far_ball Examples.origin = [1999].
Proof.
  unfold Spec.instance_sdfs, Spec.ball_sdf; simpl.
  replace ((0 - 0) * (0 - 0) + (0 - 0) * (0 - 0) + (2000 - 0) * (2000 - 0))
    with (2000 * 2000) by lra.
  rewrite sqrt_square by lra. f_equal; lra.
Qed.

Lemma far_ball_calc_sdf :
  Ball.calc_sdf Examples.INF Examples.far_ball Examples.origin = 1000.
Proof.
  unfold Ball.calc_sdf, ObjectRT.calc_sdf, ObjectRT.calc_sdf_step.
  change (seq 0 (Ball.shape Examples.far_ball)) with [0%nat].
  cbn [fold_left]. rewrite do_calc_sdf_spec.
  pose proof far_ball_sdf as H. unfold Spec.instance_sdfs in H.
  change (seq 0 (Ball.shape Examples.far_ball)) with [0%nat] in H.
  cbn [map] in H. injection H as ->.
  unfold Examples.INF, Rmin. destruct (Rle_dec 1000 1999); lra.
Qed.

(** C1, the counterexample.  With the sentinel [INF = 1000] and a single
    unit ball at distance 2000, the only instance distance is 1999 but
    [calc_sdf] returns 1000, which is not the minimum over the instances. *)
Lemma calc_sdf_far_ball_not_minimum :
  Spec.instance_sdfs Examples.far_ball Examples.origin = [1999]
  /\ Ball.calc_sdf Examples.INF Examples.far_ball Examples.origin = 1000
  /\ ~ Spec.is_minimum
         (Ball.calc_sdf Examples.INF Examples.far_ball Examples.origin)
         (Spec.instance_sdfs Examples.far_ball Examples.origin).
Proof.
  split; [exact far_ball_sdf | split; [exact far_ball_calc_sdf |]].
  rewrite far_ball_sdf, far_ball_calc_sdf.
  intros [[H | []] _]; lra.
Qed.

(** C2.  For one ball and any ray, the distance that [do_intersect]
    returns is [INF] when [det <= 0] (so also for a tangent ray,
    [det = 0]); otherwise it is the near root [b - sqrt det] if that is
    above [EPS], else the far root [b + sqrt det] if that is above [EPS],
    else [INF]. *)
Theorem do_intersect_distance_cases :
  forall (EPS INF : R) (self : Ball.t) (orig dir : vec3),
    fst (Ball.do_intersect EPS INF self orig dir)
    = Spec.hit_distance EPS INF self orig dir
    /\ (Spec.det self orig dir = 0 ->
        fst (Ball.do_intersect EPS INF self orig dir) = INF).
Proof.
  intros EPS INF self orig dir.
  assert (H : fst (Ball.do_intersect EPS INF self orig dir)
              = Spec.hit_distance EPS INF self orig dir)
    by (unfold Ball.do_intersect; cbv zeta; simpl; apply hit_distance_spec).
  split; [exact H |].
  intros Hd; rewrite H; unfold Spec.hit_distance.
  destruct (Rle_dec (Spec.det self orig dir) 0); [reflexivity | lra].
Qed.

Lemma tangent_ball_det :
  Spec.det Examples.tangent_ball Examples.origin Examples.z_axis = 0.
Proof.
  unfold Spec.det, Spec.b, Spec.op, Vec3.norm_sqr, Vec3.dot; simpl; lra.
Qed.

(** C2, an instance: a tangent ray is a miss. *)
Lemma do_intersect_tangent_ray :
  fst (Ball.do_intersect Examples.EPS Examples.INF Examples.tangent_ball
                         Examples.origin Examples.z_axis)
  = Examples.INF.
Proof.
  exact (proj2 (do_intersect_distance_cases Examples.EPS Examples.INF
                  Examples.tangent_ball Examples.origin Examples.z_axis)
               tangent_ball_det).
Defined.

(** The result of [intersect] on a batch of balls: the untouched
    accumulator when no instance is below [INF], otherwise the result of
    the first instance that attains the least distance. *)
Lemma ball_intersect_cases (EPS INF : R) (self : Ball.batch)
    (orig dir : vec3) :
  let hit := fun I => Ball.do_intersect EPS INF (Ball.make_one self I)
                                        orig dir in
  let r := Ball.intersect EPS INF self orig dir in
  (r = (INF, ts.vec3 0)
   /\ forall J, (J < Ball.shape self)%nat -> INF <= fst (hit J))
  \/ (exists K, (K < Ball.shape self)%nat /\ r = hit K /\ fst r < INF
                /\ (forall J, (J < K)%nat -> fst r < fst (hit J))
                /\ (forall J, (J < Ball.shape self)%nat ->
                              fst r <= fst (hit J))).
Proof.
  exact (intersect_prefix INF _ _ Ball.make_one (Ball.do_intersect EPS INF)
                          self orig dir (Ball.shape self)).
Qed.

Lemma fst_do_intersect (EPS INF : R) (self : Ball.t) (orig dir : vec3) :
  fst (Ball.do_intersect EPS INF self orig dir)
  = Ball.hit_distance EPS INF self orig dir.
Proof. reflexivity. Qed.

(** A distance below [INF] is an accepted root. *)
Lemma hit_below_INF_accepted (EPS INF : R) (self : Ball.t) (orig dir : vec3) :
  Ball.hit_distance EPS INF self orig dir < INF ->
  Spec.accepted_root EPS self orig dir
                     (Ball.hit_distance EPS INF self orig dir).
Proof.
  intros Hlt.
  destruct (hit_distance_cases EPS INF self orig dir) as [H | [_ H]];
    [exact H | lra].
Qed.

(** C3 (as amended).  For every batch of balls and every ray: if some
    instance has an accepted root below [INF], [intersect] returns the
    least accepted root over all instances, and its result is the one of
    the first instance that attains it (every earlier instance has a
    strictly larger accepted root, or none); if no instance has an accepted
    root below [INF], [intersect] returns [INF] with the zero normal. *)
Theorem intersect_minimal_root_below_INF :
  forall (EPS INF : R) (self : Ball.batch) (orig dir : vec3),
    let r := Ball.intersect EPS INF self orig dir in
    ((exists I t, (I < Ball.shape self)%nat
                  /\ Spec.accepted_root EPS (Ball.make_one self I) orig dir t
                  /\ t < INF) ->
     Spec.minimal_accepted_root EPS self orig dir (fst r)
     /\ fst r < INF
     /\ exists K, (K < Ball.shape self)%nat
                  /\ r = Ball.do_intersect EPS INF (Ball.make_one self K)
                                           orig dir
                  /\ forall J t', (J < K)%nat ->
                       Spec.accepted_root EPS (Ball.make_one self J)
                                          orig dir t' ->
                       fst r < t')
    /\ ((forall I t, (I < Ball.shape self)%nat ->
                     Spec.accepted_root EPS (Ball.make_one self I) orig dir t ->
                     INF <= t) ->
        r = (INF, ts.vec3 0)).
Proof.
  intros EPS INF self orig dir r.
  destruct (ball_intersect_cases EPS INF self orig dir)
    as [[Heq Hall] | (K & HK & Heq & Hlt & Hbefore & Hle)];
    fold r in Heq; try fold r in Hlt, Hbefore, Hle.
  - split; [| intros _; exact Heq].
    intros (I & t & HI & Hacc & Ht).
    specialize (Hall I HI). rewrite fst_do_intersect in Hall.
    rewrite (accepted_root_hit_distance EPS INF _ _ _ _ Hacc) in Hall. lra.
  - assert (HaccK : Spec.accepted_root EPS (Ball.make_one self K) orig dir
                                       (fst r)).
    { rewrite Heq, fst_do_intersect. apply hit_below_INF_accepted.
      rewrite <- fst_do_intersect, <- Heq. exact Hlt. }
    split.
    + intros _. split; [split | split; [exact Hlt |]].
      * exists K; auto.
      * intros J t' HJ Hacc. specialize (Hle J HJ).
        rewrite fst_do_intersect in Hle.
        now rewrite (accepted_root_hit_distance EPS INF _ _ _ _ Hacc) in Hle.
      * exists K; repeat split; auto.
        intros J t' HJ Hacc. specialize (Hbefore J HJ).
        rewrite fst_do_intersect in Hbefore.
        now rewrite (accepted_root_hit_distance EPS INF _ _ _ _ Hacc)
          in Hbefore.
    + intros Hnone. specialize (Hnone K (fst r) HK HaccK). lra.
Qed.

(** The quadratic of the far ball for the ray along the z axis. *)
Lemma far_ball_root :
  Spec.accepted_root Examples.EPS
    (Ball.make_one Examples.far_ball 0) Examples.origin Examples.z_axis 1999.
Proof.
  assert (Hdet : Spec.det (Ball.make_one Examples.far_ball 0)
                          Examples.origin Examples.z_axis = 1)
    by (unfold Spec.det, Spec.b, Spec.op, Vec3.norm_sqr, Vec3.dot; simpl; lra).
  unfold Spec.accepted_root, Spec.near_root, Spec.far_root.
  rewrite Hdet, sqrt_1.
  unfold Spec.b, Spec.op, Vec3.dot, Examples.EPS; simpl.
  split; [lra | left; split; lra].
Qed.

Lemma far_ball_intersect :
  Ball.intersect Examples.EPS Examples.INF Examples.far_ball
                 Examples.origin Examples.z_axis
  = (1000, ts.vec3 0).
Proof.
  unfold Ball.intersect, ObjectRT.intersect.
  change (seq 0 (Ball.shape Examples.far_ball)) with [0%nat].
  cbn [fold_left]. rewrite intersect_step_unfold, fst_do_intersect.
  rewrite (accepted_root_hit_distance _ _ _ _ _ _ far_ball_root).
  cbn [fst]. unfold Examples.INF.
  destruct (Rlt_dec 1999 1000); [lra | reflexivity].
Qed.

(** C3, the counterexample.  With [EPS = 1/1000] and [INF = 1000], the
    unit ball at distance 2000 on the ray has a positive discriminant and
    the accepted root 1999, yet [intersect] returns [INF], which is not
    the least accepted root. *)
Lemma intersect_far_ball_returns_INF :
  Spec.has_root Examples.EPS (Ball.make_one Examples.far_ball 0)
                Examples.origin Examples.z_axis
  /\ Spec.accepted_root Examples.EPS (Ball.make_one Examples.far_ball 0)
                        Examples.origin Examples.z_axis 1999
  /\ fst (Ball.intersect Examples.EPS Examples.INF Examples.far_ball
                         Examples.origin Examples.z_axis) = Examples.INF
  /\ ~ Spec.minimal_accepted_root Examples.EPS Examples.far_ball
         Examples.origin Examples.z_axis
         (fst (Ball.intersect Examples.EPS Examples.INF Examples.far_ball
                              Examples.origin Examples.z_axis)).
Proof.
  split; [exact (accepted_root_has_root _ _ _ _ _ far_ball_root) |].
  split; [exact far_ball_root |].
  rewrite far_ball_intersect; cbn [fst].
  split; [reflexivity |].
  intros [(I & HI & Hacc) _]. change (I < 1)%nat in HI.
  assert (I = 0)%nat as -> by lia.
  pose proof (accepted_root_unique _ _ _ _ _ _ Hacc far_ball_root). lra.
Qed.

(** C10.  For every batch of balls and every ray for which no instance has
    a positive discriminant and a root above [EPS], [intersect] returns the
    pair of [INF] and the zero vector. *)
Theorem intersect_total_miss :
  forall (EPS INF : R) (self : Ball.batch) (orig dir : vec3),
    (forall I, (I < Ball.shape self)%nat ->
               ~ Spec.has_root EPS (Ball.make_one self I) orig dir) ->
    Ball.intersect EPS INF self orig dir = (INF, ts.vec3 0).
Proof.
  intros EPS INF self orig dir Hnone.
  destruct (ball_intersect_cases EPS INF self orig dir)
    as [[Heq _] | (K & HK & Heq & Hlt & _)]; [exact Heq |].
  exfalso; apply (Hnone K HK).
  apply (accepted_root_has_root EPS _ _ _
           (Ball.hit_distance EPS INF (Ball.make_one self K) orig dir)).
  apply hit_below_INF_accepted.
  rewrite <- fst_do_intersect, <- Heq. exact Hlt.
Qed.

(** Neither of the two balls is met by the ray along the y axis. *)
Lemma two_balls_y_axis_no_root (I : nat) :
  (I < Ball.shape Examples.two_balls)%nat ->
  ~ Spec.has_root Examples.EPS (Ball.make_one Examples.two_balls I)
                  Examples.origin Examples.y_axis.
Proof.
  intros HI [Hdet _]. change (I < 2)%nat in HI.
  assert (I = 0 \/ I = 1)%nat as [-> | ->] by lia;
    unfold Spec.det, Spec.b, Spec.op, Vec3.norm_sqr, Vec3.dot in Hdet;
    simpl in Hdet; lra.
Qed.

(** C10, an instance: the ray along the y axis misses both balls. *)
Lemma intersect_total_miss_two_balls :
  Ball.intersect Examples.EPS Examples.INF Examples.two_balls
                 Examples.origin Examples.y_axis
  = (Examples.INF, ts.vec3 0).
Proof.
  apply (intersect_total_miss Examples.EPS Examples.INF Examples.two_balls
           Examples.origin Examples.y_axis).
  exact two_balls_y_axis_no_root.
Defined.

(** [ts.normalize] multiplies its argument by a factor that is not
    negative, and positive when the argument is not the zero vector. *)
Lemma normalize_scale (v : vec3) :
  exists k, 0 <= k /\ (0 < Vec3.norm_sqr v -> 0 < k)
            /\ ts.normalize v = Vec3.scale k v.
Proof.
  exists (/ Vec3.norm v); unfold ts.normalize, Vec3.norm; repeat split.
  - destruct (Req_dec (sqrt (Vec3.norm_sqr v)) 0) as [-> | Hnz].
    + rewrite Rinv_0; lra.
    + left; apply Rinv_0_lt_compat.
      pose proof (sqrt_pos (Vec3.norm_sqr v)); lra.
  - intros Hpos; apply Rinv_0_lt_compat, sqrt_lt_R0, Hpos.
Qed.

(** The ray along the x axis meets only the second of the two balls, at
    distance 4. *)
Lemma two_balls_x_axis_roots :
  ~ Spec.has_root Examples.EPS (Ball.make_one Examples.two_balls 0)
                  Examples.origin Examples.x_axis
  /\ Spec.accepted_root Examples.EPS (Ball.make_one Examples.two_balls 1)
                        Examples.origin Examples.x_axis 4.
Proof.
  split.
  - intros [Hdet _].
    unfold Spec.det, Spec.b, Spec.op, Vec3.norm_sqr, Vec3.dot in Hdet;
      simpl in Hdet; lra.
  - assert (Hdet : Spec.det (Ball.make_one Examples.two_balls 1)
                            Examples.origin Examples.x_axis = 1)
      by (unfold Spec.det, Spec.b, Spec.op, Vec3.norm_sqr, Vec3.dot;
          simpl; lra).
    unfold Spec.accepted_root, Spec.near_root, Spec.far_root.
    rewrite Hdet, sqrt_1.
    unfold Spec.b, Spec.op, Vec3.dot, Examples.EPS; simpl.
    split; [lra | left; split; lra].
Qed.

(** The ray along the z axis meets only the first of the two balls, at
    distance 4. *)
Lemma two_balls_z_axis_roots :
  Spec.accepted_root Examples.EPS (Ball.make_one Examples.two_balls 0)
                     Examples.origin Examples.z_axis 4
  /\ ~ Spec.has_root Examples.EPS (Ball.make_one Examples.two_balls 1)
                     Examples.origin Examples.z_axis.
Proof.
  split.
  - assert (Hdet : Spec.det (Ball.make_one Examples.two_balls 0)
                            Examples.origin Examples.z_axis = 1)
      by (unfold Spec.det, Spec.b, Spec.op, Vec3.norm_sqr, Vec3.dot;
          simpl; lra).
    unfold Spec.accepted_root, Spec.near_root, Spec.far_root.
    rewrite Hdet, sqrt_1.
    unfold Spec.b, Spec.op, Vec3.dot, Examples.EPS; simpl.
    split; [lra | left; split; lra].
  - intros [Hdet _].
    unfold Spec.det, Spec.b, Spec.op, Vec3.norm_sqr, Vec3.dot in Hdet;
      simpl in Hdet; lra.
Qed.

Lemma no_root_hit_distance (EPS INF : R) (self : Ball.t) (orig dir : vec3) :
  ~ Spec.has_root EPS self orig dir ->
  Ball.hit_distance EPS INF self orig dir = INF.
Proof.
  intros Hno.
  destruct (hit_distance_cases EPS INF self orig dir) as [H | [_ H]];
    [| exact H].
  now apply accepted_root_has_root in H.
Qed.

(** The normal of a unit vector pointing from the hit point to the centre,
    reversed. *)
Lemma normalize_minus_x : ts.normalize (Vec3.mk (4 * 1 - (5 - 0))
                                                (4 * 0 - (0 - 0))
                                                (4 * 0 - (0 - 0)))
                          = Vec3.mk (-1) 0 0.
Proof.
  unfold ts.normalize, Vec3.norm, Vec3.norm_sqr, Vec3.dot, Vec3.scale; simpl.
  replace ((4 * 1 - (5 - 0)) * (4 * 1 - (5 - 0))
           + (4 * 0 - (0 - 0)) * (4 * 0 - (0 - 0))
           + (4 * 0 - (0 - 0)) * (4 * 0 - (0 - 0))) with 1 by lra.
  rewrite sqrt_1, Rinv_1. f_equal; lra.
Qed.

Lemma normalize_minus_z : ts.normalize (Vec3.mk (4 * 0 - (0 - 0))
                                                (4 * 0 - (0 - 0))
                                                (4 * 1 - (5 - 0)))
                          = Vec3.mk 0 0 (-1).
Proof.
  unfold ts.normalize, Vec3.norm, Vec3.norm_sqr, Vec3.dot, Vec3.scale; simpl.
  replace ((4 * 0 - (0 - 0)) * (4 * 0 - (0 - 0))
           + (4 * 0 - (0 - 0)) * (4 * 0 - (0 - 0))
           + (4 * 1 - (5 - 0)) * (4 * 1 - (5 - 0))) with 1 by lra.
  rewrite sqrt_1, Rinv_1. f_equal; lra.
Qed.

Lemma two_balls_x_axis_intersect :
  Ball.intersect Examples.EPS Examples.INF Examples.two_balls
                 Examples.origin Examples.x_axis
  = (4, Vec3.mk (-1) 0 0).
Proof.
  destruct two_balls_x_axis_roots as [H0 H1].
  unfold Ball.intersect, ObjectRT.intersect.
  change (seq 0 (Ball.shape Examples.two_balls)) with [0%nat; 1%nat].
  cbn [fold_left].
  rewrite !intersect_step_unfold, !fst_do_intersect.
  rewrite (no_root_hit_distance _ _ _ _ _ H0). cbn [fst].
  destruct (Rlt_dec Examples.INF Examples.INF) as [Hlt | _]; [lra |].
  rewrite (accepted_root_hit_distance _ Examples.INF _ _ _ _ H1). cbn [fst].
  destruct (Rlt_dec 4 Examples.INF) as [_ | Hge];
    [| unfold Examples.INF in Hge; lra].
  unfold Ball.do_intersect; cbv zeta.
  rewrite (accepted_root_hit_distance _ Examples.INF _ _ _ _ H1).
  f_equal. exact normalize_minus_x.
Qed.

Lemma two_balls_z_axis_intersect :
  Ball.intersect Examples.EPS Examples.INF Examples.two_balls
                 Examples.origin Examples.z_axis
  = (4, Vec3.mk 0 0 (-1)).
Proof.
  destruct two_balls_z_axis_roots as [H0 H1].
  unfold Ball.intersect, ObjectRT.intersect.
  change (seq 0 (Ball.shape Examples.two_balls)) with [0%nat; 1%nat].
  cbn [fold_left].
  rewrite !intersect_step_unfold, !fst_do_intersect.
  rewrite (accepted_root_hit_distance _ Examples.INF _ _ _ _ H0). cbn [fst].
  destruct (Rlt_dec 4 Examples.INF) as [_ | Hge];
    [| unfold Examples.INF in Hge; lra].
  rewrite fst_do_intersect.
  rewrite (accepted_root_hit_distance _ Examples.INF _ _ _ _ H0).
  rewrite (no_root_hit_distance _ _ _ _ _ H1).
  destruct (Rlt_dec Examples.INF 4) as [Hlt | _];
    [unfold Examples.INF in Hlt; lra |].
  unfold Ball.do_intersect; cbv zeta.
  rewrite (accepted_root_hit_distance _ Examples.INF _ _ _ _ H0).
  f_equal. exact normalize_minus_z.
Qed.

(** C4 (as amended).  When [intersect] on a batch of balls returns a
    distance [t] below [INF], its normal is [normalize(dir * t - op)] with
    [op = pos_K - orig] taken from the winning instance [K] itself, the
    first one that attains [t]; and every instance computes its normal by
    this formula from its own [op] whatever its distance is, a miss
    included. *)
Theorem intersect_normal_of_winner :
  forall (EPS INF : R) (self : Ball.batch) (orig dir : vec3),
    let r := Ball.intersect EPS INF self orig dir in
    (fst r < INF ->
     exists K, (K < Ball.shape self)%nat
       /\ fst (Ball.do_intersect EPS INF (Ball.make_one self K) orig dir)
          = fst r
       /\ (forall J, (J < K)%nat ->
             fst r < fst (Ball.do_intersect EPS INF (Ball.make_one self J)
                                            orig dir))
       /\ snd r
          = ts.normalize
              (Vec3.sub (Vec3.scale (fst r) dir)
                        (Vec3.sub (Ball.pos (Ball.make_one self K)) orig)))
    /\ (forall one : Ball.t,
          snd (Ball.do_intersect EPS INF one orig dir)
          = ts.normalize
              (Vec3.sub
                 (Vec3.scale (fst (Ball.do_intersect EPS INF one orig dir)) dir)
                 (Vec3.sub (Ball.pos one) orig))).
Proof.
  intros EPS INF self orig dir r; split; [| reflexivity].
  intros Hlt.
  destruct (ball_intersect_cases EPS INF self orig dir)
    as [[Heq _] | (K & HK & Heq & _ & Hbefore & _)];
    fold r in Heq; try fold r in Hbefore.
  - rewrite Heq in Hlt; simpl in Hlt; lra.
  - exists K; repeat split; auto.
    + now rewrite Heq.
    + rewrite Heq at 1. unfold Ball.do_intersect at 1; cbv zeta; cbn [snd].
      rewrite <- fst_do_intersect. now rewrite <- Heq.
Qed.

(** C4, the counterexample.  From the origin, the ray along the x axis
    meets the ball on the x axis and the ray along the z axis the ball on
    the z axis, each with the normal of the ball it meets; no vector fixed
    by the batch and the origin alone gives both normals. *)
Lemma intersect_normal_not_batch_level :
  Ball.intersect Examples.EPS Examples.INF Examples.two_balls
                 Examples.origin Examples.x_axis = (4, Vec3.mk (-1) 0 0)
  /\ Ball.intersect Examples.EPS Examples.INF Examples.two_balls
                    Examples.origin Examples.z_axis = (4, Vec3.mk 0 0 (-1))
  /\ ~ Spec.batch_level_normal Examples.EPS Examples.INF.
Proof.
  split; [exact two_balls_x_axis_intersect |].
  split; [exact two_balls_z_axis_intersect |].
  intros [opB H].
  pose proof (H Examples.two_balls Examples.origin Examples.x_axis) as Hx.
  pose proof (H Examples.two_balls Examples.origin Examples.z_axis) as Hz.
  rewrite two_balls_x_axis_intersect in Hx.
  rewrite two_balls_z_axis_intersect in Hz.
  cbn [fst snd] in Hx, Hz. unfold Examples.INF in Hx, Hz.
  specialize (Hx ltac:(lra)). specialize (Hz ltac:(lra)).
  destruct (opB Examples.two_balls Examples.origin) as [u v w].
  destruct (normalize_scale
              (Vec3.sub (Vec3.scale 4 Examples.x_axis) (Vec3.mk u v w)))
    as (k & Hk & _ & Ek).
  destruct (normalize_scale
              (Vec3.sub (Vec3.scale 4 Examples.z_axis) (Vec3.mk u v w)))
    as (k' & Hk' & _ & Ek').
  rewrite Ek in Hx; rewrite Ek' in Hz.
  unfold Vec3.scale, Vec3.sub in Hx, Hz; simpl in Hx, Hz.
  injection Hx as Hx1 Hx2 Hx3. injection Hz as Hz1 Hz2 Hz3.
  assert (Hknz : k <> 0) by (intros ->; lra).
  assert (Hk'nz : k' <> 0) by (intros ->; lra).
  assert (Hw : w = 0).
  { destruct (Rmult_integral _ _ (eq_sym Hx3)) as [? | ?]; [tauto | lra]. }
  subst w. nra.
Qed.

(** ** The sentinel, whatever its value *)

(** Whatever real number [INF] is, some ball is farther away, and [calc_sdf]
    then returns [INF] and not the distance of the ball. *)
Lemma calc_sdf_saturates (INF : R) :
  Spec.instance_sdfs (Examples.ball_beyond INF) Examples.origin
  = [Rabs INF + 1]
  /\ Ball.calc_sdf INF (Examples.ball_beyond INF) Examples.origin = INF
  /\ INF < Rabs INF + 1.
Proof.
  assert (Hsdf : Spec.instance_sdfs (Examples.ball_beyond INF) Examples.origin
                 = [Rabs INF + 1]).
  { unfold Spec.instance_sdfs, Spec.ball_sdf; simpl.
    replace ((Rabs INF + 2 - 0) * (Rabs INF + 2 - 0)
             + (0 - 0) * (0 - 0) + (0 - 0) * (0 - 0))
      with ((Rabs INF + 2) * (Rabs INF + 2)) by ring.
    rewrite sqrt_square by (pose proof (Rabs_pos INF); lra).
    f_equal; lra. }
  pose proof (Rle_abs INF) as Habs.
  split; [exact Hsdf | split; [| lra]].
  unfold Ball.calc_sdf, ObjectRT.calc_sdf, ObjectRT.calc_sdf_step.
  change (seq 0 (Ball.shape (Examples.ball_beyond INF))) with [0%nat].
  cbn [fold_left]. rewrite do_calc_sdf_spec.
  unfold Spec.instance_sdfs in Hsdf.
  change (seq 0 (Ball.shape (Examples.ball_beyond INF))) with [0%nat] in Hsdf.
  cbn [map] in Hsdf. injection Hsdf as ->.
  apply Rmin_left; lra.
Qed.

(** Whatever real numbers [EPS] and [INF] are, some ball on the ray has an
    accepted root that [intersect] does not return. *)
Lemma intersect_saturates (EPS INF : R) :
  Spec.accepted_root EPS (Ball.make_one (Examples.ball_ahead EPS INF) 0)
    Examples.origin Examples.z_axis (Rabs INF + Rabs EPS + 1)
  /\ Ball.intersect EPS INF (Examples.ball_ahead EPS INF)
                    Examples.origin Examples.z_axis
     = (INF, ts.vec3 0).
Proof.
  pose proof (Rle_abs INF) as HI. pose proof (Rle_abs EPS) as HE.
  pose proof (Rabs_pos INF) as HI0. pose proof (Rabs_pos EPS) as HE0.
  assert (Hroot : Spec.accepted_root EPS
                    (Ball.make_one (Examples.ball_ahead EPS INF) 0)
                    Examples.origin Examples.z_axis
                    (Rabs INF + Rabs EPS + 1)).
  { assert (Hdet : Spec.det (Ball.make_one (Examples.ball_ahead EPS INF) 0)
                            Examples.origin Examples.z_axis = 1)
      by (unfold Spec.det, Spec.b, Spec.op, Vec3.norm_sqr, Vec3.dot;
          simpl; ring).
    unfold Spec.accepted_root, Spec.near_root, Spec.far_root.
    rewrite Hdet, sqrt_1.
    unfold Spec.b, Spec.op, Vec3.dot; simpl.
    split; [lra | left; split; lra]. }
  split; [exact Hroot |].
  unfold Ball.intersect, ObjectRT.intersect.
  change (seq 0 (Ball.shape (Examples.ball_ahead EPS INF))) with [0%nat].
  cbn [fold_left]. rewrite intersect_step_unfold, fst_do_intersect.
  rewrite (accepted_root_hit_distance _ _ _ _ _ _ Hroot).
  cbn [fst]. destruct (Rlt_dec _ INF); [lra | reflexivity].
Qed.

(** ** Instances on the two balls *)

Lemma two_balls_sdfs :
  Spec.instance_sdfs Examples.two_balls Examples.origin = [4; 4].
Proof.
  unfold Spec.instance_sdfs, Spec.ball_sdf; simpl.
  replace ((0 - 0) * (0 - 0) + (0 - 0) * (0 - 0) + (5 - 0) * (5 - 0))
    with (5 * 5) by lra.
  replace ((5 - 0) * (5 - 0) + (0 - 0) * (0 - 0) + (0 - 0) * (0 - 0))
    with (5 * 5) by lra.
  rewrite sqrt_square by lra.
  repeat f_equal; lra.
Qed.

Lemma two_balls_within_INF :
  exists d, In d (Spec.instance_sdfs Examples.two_balls Examples.origin)
            /\ d <= Examples.INF.
Proof.
  exists 4; rewrite two_balls_sdfs; split;
    [now left | unfold Examples.INF; lra].
Qed.

(** C1, an instance: both balls are at distance 4 from the origin, below
    [INF = 1000], and [calc_sdf] returns the least instance distance. *)
Lemma calc_sdf_two_balls_minimum :
  Spec.is_minimum
    (Ball.calc_sdf Examples.INF Examples.two_balls Examples.origin)
    (Spec.instance_sdfs Examples.two_balls Examples.origin).
Proof.
  exact (proj2 (calc_sdf_minimum_capped_by_INF Examples.INF Examples.two_balls
                                               Examples.origin)
               two_balls_within_INF).
Defined.

Lemma two_balls_x_axis_root_below_INF :
  exists I t, (I < Ball.shape Examples.two_balls)%nat
    /\ Spec.accepted_root Examples.EPS (Ball.make_one Examples.two_balls I)
                          Examples.origin Examples.x_axis t
    /\ t < Examples.INF.
Proof.
  exists 1%nat, 4; split; [change (1 < 2)%nat; lia |].
  split; [exact (proj2 two_balls_x_axis_roots) | unfold Examples.INF; lra].
Qed.

(** C3, an instance: along the x axis the second ball is met at distance 4,
    the least accepted root of the batch. *)
Lemma intersect_two_balls_minimal_root :
  Spec.minimal_accepted_root Examples.EPS Examples.two_balls
    Examples.origin Examples.x_axis
    (fst (Ball.intersect Examples.EPS Examples.INF Examples.two_balls
                         Examples.origin Examples.x_axis)).
Proof.
  exact (proj1 (proj1 (intersect_minimal_root_below_INF
                         Examples.EPS Examples.INF Examples.two_balls
                         Examples.origin Examples.x_axis)
                      two_balls_x_axis_root_below_INF)).
Defined.

Lemma two_balls_x_axis_below_INF :
  fst (Ball.intersect Examples.EPS Examples.INF Examples.two_balls
                      Examples.origin Examples.x_axis) < Examples.INF.
Proof.
  rewrite two_balls_x_axis_intersect; unfold Examples.INF; simpl; lra.
Qed.

(** C4, an instance: along the x axis the normal is the one of a ball of
    the batch, computed from the position of that ball. *)
Lemma intersect_normal_two_balls :
  exists K, (K < Ball.shape Examples.two_balls)%nat
    /\ fst (Ball.do_intersect Examples.EPS Examples.INF
              (Ball.make_one Examples.two_balls K)
              Examples.origin Examples.x_axis)
       = fst (Ball.intersect Examples.EPS Examples.INF Examples.two_balls
                             Examples.origin Examples.x_axis)
    /\ (forall J, (J < K)%nat ->
          fst (Ball.intersect Examples.EPS Examples.INF Examples.two_balls
                              Examples.origin Examples.x_axis)
          < fst (Ball.do_intersect Examples.EPS Examples.INF
                   (Ball.make_one Examples.two_balls J)
                   Examples.origin Examples.x_axis))
    /\ snd (Ball.intersect Examples.EPS Examples.INF Examples.two_balls
                           Examples.origin Examples.x_axis)
       = ts.normalize
           (Vec3.sub
              (Vec3.scale
                 (fst (Ball.intersect Examples.EPS Examples.INF
                         Examples.two_balls Examples.origin Examples.x_axis))
                 Examples.x_axis)
              (Vec3.sub (Ball.pos (Ball.make_one Examples.two_balls K))
                        Examples.origin)).
Proof.
  exact (proj1 (intersect_normal_of_winner
                  Examples.EPS Examples.INF Examples.two_balls
                  Examples.origin Examples.x_axis)
               two_balls_x_axis_below_INF).
Defined.

(** ** The pixel loops *)

Lemma pixel_eqb_eq (X Y : Image.pixel) :
  Image.pixel_eqb X Y = true <-> X = Y.
Proof.
  destruct X as [x y], Y as [x' y']; unfold Image.pixel_eqb; simpl.
  rewrite Bool.andb_true_iff, !Z.eqb_eq.
  split; [intros [-> ->]; reflexivity | intros [= -> ->]; auto].
Qed.

Lemma pixel_eqb_refl (X : Image.pixel) : Image.pixel_eqb X X = true.
Proof. now apply pixel_eqb_eq. Qed.

Lemma pixel_eqb_neq (X Y : Image.pixel) :
  X <> Y -> Image.pixel_eqb X Y = false.
Proof.
  intros Hne; destruct (Image.pixel_eqb X Y) eqn:E; [| reflexivity].
  now apply pixel_eqb_eq in E.
Qed.

Lemma existsb_pixel_In (X : Image.pixel) (l : list Image.pixel) :
  existsb (Image.pixel_eqb X) l = true <-> In X l.
Proof.
  rewrite existsb_exists; split.
  - intros (Y & HY & E). apply pixel_eqb_eq in E. now subst.
  - intros H; exists X; split; [exact H | apply pixel_eqb_refl].
Qed.

Lemma In_range (lo hi i : Z) : In i (range lo hi) <-> (lo <= i < hi)%Z.
Proof.
  unfold range; rewrite in_map_iff; split.
  - intros (k & <- & Hk). apply in_seq in Hk. lia.
  - intros Hi. exists (Z.to_nat (i - lo)); split; [lia |].
    apply in_seq. lia.
Qed.

Lemma NoDup_range (lo hi : Z) : NoDup (range lo hi).
Proof.
  unfold range. apply Finite.Injective_map_NoDup; [| apply seq_NoDup].
  intros i j H. lia.
Qed.

Lemma In_ndrange2 (M N : Z * Z) (X : Image.pixel) :
  In X (ndrange2 M N)
  <-> (fst M <= fst X < fst N)%Z /\ (snd M <= snd X < snd N)%Z.
Proof.
  unfold ndrange2; rewrite in_flat_map; split.
  - intros (x & Hx & HX). apply in_map_iff in HX as (y & <- & Hy).
    apply In_range in Hx, Hy. simpl; auto.
  - intros [Hx Hy]. exists (fst X); split; [now apply In_range |].
    apply in_map_iff. exists (snd X); split; [now destruct X |].
    now apply In_range.
Qed.

Lemma NoDup_ndrange2 (M N : Z * Z) : NoDup (ndrange2 M N).
Proof.
  unfold ndrange2.
  generalize (NoDup_range (fst M) (fst N)).
  induction (range (fst M) (fst N)) as [|x xs IH]; intros Hnd; simpl.
  - constructor.
  - inversion Hnd as [|? ? Hx Hxs]; subst.
    apply NoDup_app; repeat split.
    + apply Finite.Injective_map_NoDup; [| apply NoDup_range].
      intros y y' [= ->]; reflexivity.
    + now apply IH.
    + intros [x' y'] H1 H2.
      apply in_map_iff in H1 as (y & [= <- <-] & _).
      apply in_flat_map in H2 as (x'' & Hx'' & H2).
      apply in_map_iff in H2 as (y'' & [= <- <-] & _). contradiction.
Qed.

(** A loop over distinct pixels whose body rewrites the visited pixel alone,
    from its own value, leaves every visited pixel with the value of one
    body and every other pixel as it was. *)
Section Pixel_loop.

Variable body : Image.t -> Image.pixel -> Image.t.
Variable value : Image.pixel -> vec3 -> vec3.
Hypothesis body_at :
  forall img X Y,
    body img X Y = if Image.pixel_eqb X Y then value X (img X) else img Y.

Lemma loop_not_visited (l : list Image.pixel) (img : Image.t)
    (Y : Image.pixel) :
  ~ In Y l -> fold_left body l img Y = img Y.
Proof.
  revert img; induction l as [|X l IH]; intros img Hnot; simpl; [reflexivity|].
  rewrite IH by (intros H; apply Hnot; now right).
  rewrite body_at, pixel_eqb_neq; [reflexivity |].
  intros ->; apply Hnot; now left.
Qed.

Lemma loop_visited (l : list Image.pixel) (img : Image.t) (Y : Image.pixel) :
  NoDup l -> In Y l -> fold_left body l img Y = value Y (img Y).
Proof.
  revert img; induction l as [|X l IH]; intros img Hnd Hin; [destruct Hin|].
  inversion Hnd as [|? ? HX Hl]; subst. simpl.
  destruct Hin as [-> | Hin].
  - rewrite loop_not_visited by exact HX.
    now rewrite body_at, pixel_eqb_refl.
  - rewrite IH by assumption.
    rewrite body_at, pixel_eqb_neq; [reflexivity |].
    intros ->; contradiction.
Qed.

End Pixel_loop.

Lemma set_at (img : Image.t) (X Y : Image.pixel) (v : vec3) :
  Image.set img X v Y = if Image.pixel_eqb X Y then v else img Y.
Proof. reflexivity. Qed.

Lemma line_do_pixel_at (A B : vec2) (img : Image.t) (X Y : Image.pixel) :
  Line.do_pixel A B img X Y
  = if Image.pixel_eqb X Y then Spec.line_pixel_value A B X (img X)
    else img Y.
Proof.
  unfold Line.do_pixel, Spec.line_pixel_value, Image.atomic_min; cbv zeta.
  destruct (Rlt_dec (Line.udf A B X) 0);
    [| destruct (Rlt_dec (Line.udf A B X) (Line.W ^ 2))];
    rewrite ?set_at; try reflexivity.
  destruct (Image.pixel_eqb X Y) eqn:E; [| reflexivity].
  apply pixel_eqb_eq in E; now subst.
Qed.

Lemma triangle_do_pixel_at (A B C : vec2) (color : vec3) (img : Image.t)
    (X Y : Image.pixel) :
  Triangle.do_pixel A B C color img X Y
  = if Image.pixel_eqb X Y
    then Spec.triangle_pixel_value A B C color X (img X)
    else img Y.
Proof.
  unfold Triangle.do_pixel, Spec.triangle_pixel_value, Image.atomic_max;
    cbv zeta.
  destruct (Rlt_dec (Triangle.udf A B C X) 0);
    [| destruct (Rlt_dec (Triangle.udf A B C X) Triangle.W)];
    rewrite ?set_at; try reflexivity.
  destruct (Image.pixel_eqb X Y) eqn:E; [| reflexivity].
  apply pixel_eqb_eq in E; now subst.
Qed.

(** The image after [Line.do_render], pixel by pixel. *)
Lemma line_do_render_at (self : Line.t) (scene : Scene) (img : Image.t)
    (X : Image.pixel) :
  let A := uncook_coor scene (untrans_pos scene (Line.a self)) in
  let B := uncook_coor scene (untrans_pos scene (Line.b self)) in
  Line.do_render self scene img X
  = if Spec.line_visits scene self X
    then Spec.line_pixel_value A B X (img X) else img X.
Proof.
  intros A B. unfold Line.do_render, Spec.line_visits. fold A B.
  destruct (existsb (Image.pixel_eqb X) (Line.scan A B)) eqn:E.
  - apply existsb_pixel_In in E.
    apply (loop_visited _ _ (line_do_pixel_at A B)); [| exact E].
    apply NoDup_ndrange2.
  - apply (loop_not_visited _ _ (line_do_pixel_at A B)).
    intros H; apply existsb_pixel_In in H; congruence.
Qed.

(** The image after [Triangle.do_render], pixel by pixel. *)
Lemma triangle_do_render_at (self : Triangle.t) (scene : Scene)
    (img : Image.t) (X : Image.pixel) :
  let A := uncook_coor scene (untrans_pos scene (Triangle.a self)) in
  let B := uncook_coor scene (untrans_pos scene (Triangle.b self)) in
  let C := uncook_coor scene (untrans_pos scene (Triangle.c self)) in
  Triangle.do_render self scene img X
  = if Spec.triangle_visits scene self X
    then Spec.triangle_pixel_value A B C (Triangle.flat_color self scene)
                                   X (img X)
    else img X.
Proof.
  intros A B C. unfold Triangle.do_render, Spec.triangle_visits. fold A B C.
  destruct (existsb (Image.pixel_eqb X) (Triangle.scan A B C)) eqn:E.
  - apply existsb_pixel_In in E.
    apply (loop_visited _ _ (triangle_do_pixel_at A B C _)); [| exact E].
    apply NoDup_ndrange2.
  - apply (loop_not_visited _ _ (triangle_do_pixel_at A B C _)).
    intros H; apply existsb_pixel_In in H; congruence.
Qed.

(** ** The scanned rectangle *)

Lemma ifloor_spec (r : R) : IZR (ifloor r) <= r < IZR (ifloor r) + 1.
Proof. unfold ifloor; pose proof (base_Int_part r); lra. Qed.

Lemma iceil_spec (r : R) : IZR (iceil r) - 1 < r <= IZR (iceil r).
Proof.
  unfold iceil; rewrite opp_IZR; pose proof (base_Int_part (- r)); lra.
Qed.

(** A pixel between the two corners is scanned. *)
Lemma In_scan_box (lo hi : vec2) (X : Image.pixel) :
  Vec2.x lo <= IZR (fst X) < Vec2.x hi ->
  Vec2.y lo <= IZR (snd X) < Vec2.y hi ->
  In X (ndrange2 (ifloor2 lo) (iceil2 hi)).
Proof.
  intros Hx Hy. apply In_ndrange2; simpl.
  pose proof (ifloor_spec (Vec2.x lo)); pose proof (ifloor_spec (Vec2.y lo)).
  pose proof (iceil_spec (Vec2.x hi)); pose proof (iceil_spec (Vec2.y hi)).
  repeat split; (apply le_IZR || apply lt_IZR); lra.
Qed.

(** A pixel at least one unit beyond the upper corner is not scanned. *)
Lemma not_In_scan_box (lo hi : vec2) (X : Image.pixel) :
  Vec2.x hi + 1 <= IZR (fst X) ->
  ~ In X (ndrange2 (ifloor2 lo) (iceil2 hi)).
Proof.
  intros Hx Hin. apply In_ndrange2 in Hin as [[_ Hlt] _]; simpl in Hlt.
  apply IZR_lt in Hlt. pose proof (iceil_spec (Vec2.x hi)). lra.
Qed.

(** ** Lines *)

(** C6.  For every pixel [X] that the loop of [Line.do_render] scans (half
    width [W = 1]), the pixel after the call is opaque white [vec3(1.0)] if
    [udf < 0]; else, if [udf < W^2], the element-wise minimum of its former
    value and [vec3(t)] with [t = smoothstep(udf, 0, W^2)]; else it is
    unchanged. *)
Theorem line_render_pixel :
  forall (self : Line.t) (scene : Scene) (img : Image.t) (X : Image.pixel),
    let A := uncook_coor scene (untrans_pos scene (Line.a self)) in
    let B := uncook_coor scene (untrans_pos scene (Line.b self)) in
    let udf := Line.udf A B X in
    In X (Line.scan A B) ->
    Line.W = 1
    /\ Line.do_render self scene img X
       = if Rlt_dec udf 0 then ts.vec3 1
         else if Rlt_dec udf (Line.W ^ 2) then
           Vec3.min (img X) (ts.vec3 (ts.smoothstep udf 0 (Line.W ^ 2)))
         else img X.
Proof.
  intros self scene img X A B udf Hin; split; [reflexivity |].
  rewrite line_do_render_at. fold A B.
  unfold Spec.line_visits; fold A B.
  apply existsb_pixel_In in Hin. rewrite Hin. reflexivity.
Qed.

Lemma segment_scans_5_0 :
  In (5, 0)%Z (Line.scan (Vec2.mk 0 0) (Vec2.mk 10 0)).
Proof.
  unfold Line.scan; apply In_scan_box; concrete_bounds.
Qed.

(** C6, an instance: the pixel [(5,0)] of the segment from [(0,0)] to
    [(10,0)]. *)
Lemma line_render_pixel_segment :
  let udf := Line.udf (Vec2.mk 0 0) (Vec2.mk 10 0) (5, 0)%Z in
  Line.W = 1
  /\ Line.do_render Examples.segment Examples.scene Examples.black (5, 0)%Z
     = if Rlt_dec udf 0 then ts.vec3 1
       else if Rlt_dec udf (Line.W ^ 2) then
         Vec3.min (Examples.black (5, 0)%Z)
                  (ts.vec3 (ts.smoothstep udf 0 (Line.W ^ 2)))
       else Examples.black (5, 0)%Z.
Proof.
  exact (line_render_pixel Examples.segment Examples.scene Examples.black
           (5, 0)%Z segment_scans_5_0).
Defined.

(** ** Triangles *)

(** The three edge functions of the pixel [(2,2)] for the screen triangle
    [(0,0)], [(10,0)], [(0,10)] are negative. *)
Lemma example_edges_negative :
  let '(AB, BC, CA) :=
    Triangle.edge_functions (Vec2.mk 0 0) (Vec2.mk 10 0) (Vec2.mk 0 10)
                            (2, 2)%Z in
  AB < 0 /\ BC < 0 /\ CA < 0.
Proof.
  unfold Triangle.edge_functions, ts.length, ts.cross, Vec2.norm_sqr,
    Vec2.sub, Vec2.scale, Vec2.of_int; simpl.
  repeat match goal with
  | |- context [1 / sqrt ?e] =>
      let k := fresh "k" in
      let Hk := fresh "Hk" in
      assert (Hk : 0 < 1 / sqrt e)
        by (apply Rdiv_lt_0_compat; [lra | apply sqrt_lt_R0; lra]);
      set (k := 1 / sqrt e) in *; clearbody k
  end.
  repeat split; nra.
Qed.

Lemma example_udf_negative :
  Triangle.udf (Vec2.mk 0 0) (Vec2.mk 10 0) (Vec2.mk 0 10) (2, 2)%Z < 0.
Proof.
  pose proof example_edges_negative as H. unfold Triangle.udf.
  destruct (Triangle.edge_functions _ _ _ _) as [[AB BC] CA].
  destruct H as (H1 & H2 & H3).
  unfold Rmax; repeat destruct (Rle_dec _ _); lra.
Qed.

Lemma example_scans_2_2 :
  In (2, 2)%Z (Triangle.scan (Vec2.mk 0 0) (Vec2.mk 10 0) (Vec2.mk 0 10)).
Proof. unfold Triangle.scan; apply In_scan_box; concrete_bounds. Qed.

Lemma example_skips_20_20 :
  ~ In (20, 20)%Z
       (Triangle.scan (Vec2.mk 0 0) (Vec2.mk 10 0) (Vec2.mk 0 10)).
Proof. unfold Triangle.scan; apply not_In_scan_box; concrete_bounds. Qed.

Lemma not_In_existsb (X : Image.pixel) (l : list Image.pixel) :
  ~ In X l -> existsb (Image.pixel_eqb X) l = false.
Proof.
  intros H; destruct (existsb _ l) eqn:E; [| reflexivity].
  now apply existsb_pixel_In in E.
Qed.

(** C5.  For every pixel [X] that the loop of [Triangle.do_render] scans,
    with [udf = max(AB, BC, CA)] of the three edge functions and [W = 0.4]:
    the pixel after the call is the flat colour of the triangle if
    [udf < 0]; else, if [udf < W], the element-wise maximum of its former
    value and [smoothstep(udf, W, 0) * color]; else it is unchanged.  For
    the screen coordinates [A = (0,0)], [B = (10,0)], [C = (0,10)] the
    three edge functions of the pixel [(2,2)] are negative and the pixel
    receives the flat colour, and the pixel [(20,20)] is not written. *)
Theorem triangle_render_pixel :
  forall (self : Triangle.t) (scene : Scene) (img : Image.t),
    let A := uncook_coor scene (untrans_pos scene (Triangle.a self)) in
    let B := uncook_coor scene (untrans_pos scene (Triangle.b self)) in
    let C := uncook_coor scene (untrans_pos scene (Triangle.c self)) in
    let color := Triangle.flat_color self scene in
    Triangle.W = 4 / 10
    /\ (forall X, In X (Triangle.scan A B C) ->
          let '(AB, BC, CA) := Triangle.edge_functions A B C X in
          let udf := Rmax (Rmax AB BC) CA in
          Triangle.do_render self scene img X
          = if Rlt_dec udf 0 then color
            else if Rlt_dec udf Triangle.W then
              Vec3.max (img X)
                       (Vec3.scale (ts.smoothstep udf Triangle.W 0) color)
            else img X)
    /\ (A = Vec2.mk 0 0 -> B = Vec2.mk 10 0 -> C = Vec2.mk 0 10 ->
        (let '(AB, BC, CA) := Triangle.edge_functions A B C (2, 2)%Z in
         AB < 0 /\ BC < 0 /\ CA < 0)
        /\ Triangle.do_render self scene img (2, 2)%Z = color
        /\ Triangle.do_render self scene img (20, 20)%Z = img (20, 20)%Z).
Proof.
  intros self scene img A B C color.
  split; [reflexivity | split].
  - intros X Hin.
    pose proof (triangle_do_render_at self scene img X) as H.
    cbv zeta in H; fold A B C color in H.
    unfold Spec.triangle_visits in H; fold A B C in H.
    apply existsb_pixel_In in Hin. rewrite Hin in H.
    unfold Spec.triangle_pixel_value, Triangle.udf in H.
    destruct (Triangle.edge_functions A B C X) as [[AB BC] CA].
    exact H.
  - intros HA HB HC.
    split; [rewrite HA, HB, HC; exact example_edges_negative |].
    split.
    + rewrite triangle_do_render_at. fold A B C color.
      unfold Spec.triangle_visits; fold A B C. rewrite HA, HB, HC.
      pose proof example_scans_2_2 as Hin.
      apply existsb_pixel_In in Hin. rewrite Hin.
      unfold Spec.triangle_pixel_value.
      destruct (Rlt_dec _ 0) as [_ | Hge]; [reflexivity |].
      exfalso; apply Hge, example_udf_negative.
    + rewrite triangle_do_render_at.
      unfold Spec.triangle_visits; fold A B C. rewrite HA, HB, HC.
      now rewrite (not_In_existsb _ _ example_skips_20_20).
Qed.

(** C5, an instance: the triangle at depth 1 of the example scene, whose
    flat colour is white. *)
Lemma triangle_render_pixel_bright :
  Triangle.do_render Examples.bright_triangle Examples.scene Examples.black
                     (2, 2)%Z
  = Triangle.flat_color Examples.bright_triangle Examples.scene
  /\ Triangle.do_render Examples.bright_triangle Examples.scene Examples.black
                        (20, 20)%Z
     = Examples.black (20, 20)%Z.
Proof.
  exact (proj2 (proj2 (proj2
           (triangle_render_pixel Examples.bright_triangle Examples.scene
                                  Examples.black))
           eq_refl eq_refl eq_refl)).
Defined.

(** ** The distance of a pixel from a segment *)

Lemma distinct_points_norm_sqr (A B : vec2) :
  A <> B -> 0 < Vec2.norm_sqr (Vec2.sub B A).
Proof.
  destruct A as [a1 a2], B as [b1 b2]; unfold Vec2.norm_sqr; simpl.
  intros Hne.
  destruct (Req_dec a1 b1) as [-> | H1].
  - destruct (Req_dec a2 b2) as [-> | H2]; [now contradiction Hne |].
    assert (0 < (b2 - a2) * (b2 - a2)) by nra. nra.
  - assert (0 < (b1 - a1) * (b1 - a1)) by nra.
    pose proof (Rle_0_sqr (b2 - a2)) as Hsq; unfold Rsqr in Hsq. lra.
Qed.

(** The point of the segment at [s = 1] is [B], at [s = 0] it is [A]. *)
Lemma sq_distance_beyond_B (a1 a2 b1 b2 x1 x2 : R) :
  let A := Vec2.mk a1 a2 in
  let B := Vec2.mk b1 b2 in
  let X := Vec2.mk x1 x2 in
  let P := Vec2.sub B A in
  ts.dot B P <= ts.dot X P ->
  Spec.sq_distance_to_segment A B X (Vec2.norm_sqr (Vec2.sub B X)).
Proof.
  intros A B X P; unfold ts.dot, Spec.sq_distance_to_segment,
    Spec.segment_point, Vec2.norm_sqr; simpl; intros Hc.
  split.
  - exists 1; split; [lra | ring].
  - intros s Hs.
    assert (H1 : 0 <= (1 - s) * ((x1 * (b1 - a1) + x2 * (b2 - a2))
                                 - (b1 * (b1 - a1) + b2 * (b2 - a2))))
      by (apply Rmult_le_pos; lra).
    pose proof (Rle_0_sqr ((1 - s) * (b1 - a1))) as H2.
    pose proof (Rle_0_sqr ((1 - s) * (b2 - a2))) as H3.
    unfold Rsqr in H2, H3.
    match goal with
    | |- ?l <= ?r =>
        replace r
          with (l + (((1 - s) * (b1 - a1)) * ((1 - s) * (b1 - a1))
                     + ((1 - s) * (b2 - a2)) * ((1 - s) * (b2 - a2))
                     + 2 * ((1 - s) * ((x1 * (b1 - a1) + x2 * (b2 - a2))
                                       - (b1 * (b1 - a1) + b2 * (b2 - a2))))))
          by ring
    end.
    lra.
Qed.

Lemma sq_distance_before_A (a1 a2 b1 b2 x1 x2 : R) :
  let A := Vec2.mk a1 a2 in
  let B := Vec2.mk b1 b2 in
  let X := Vec2.mk x1 x2 in
  let P := Vec2.sub B A in
  ts.dot X P <= ts.dot A P ->
  Spec.sq_distance_to_segment A B X (Vec2.norm_sqr (Vec2.sub A X)).
Proof.
  intros A B X P; unfold ts.dot, Spec.sq_distance_to_segment,
    Spec.segment_point, Vec2.norm_sqr; simpl; intros Hc.
  split.
  - exists 0; split; [lra | ring].
  - intros s Hs.
    assert (H1 : 0 <= s * ((a1 * (b1 - a1) + a2 * (b2 - a2))
                           - (x1 * (b1 - a1) + x2 * (b2 - a2))))
      by (apply Rmult_le_pos; lra).
    pose proof (Rle_0_sqr (s * (b1 - a1))) as H2.
    pose proof (Rle_0_sqr (s * (b2 - a2))) as H3.
    unfold Rsqr in H2, H3.
    match goal with
    | |- ?l <= ?r =>
        replace r
          with (l + ((s * (b1 - a1)) * (s * (b1 - a1))
                     + (s * (b2 - a2)) * (s * (b2 - a2))
                     + 2 * (s * ((a1 * (b1 - a1) + a2 * (b2 - a2))
                                 - (x1 * (b1 - a1) + x2 * (b2 - a2))))))
          by ring
    end.
    lra.
Qed.

Lemma sq_distance_within (a1 a2 b1 b2 x1 x2 : R) :
  let A := Vec2.mk a1 a2 in
  let B := Vec2.mk b1 b2 in
  let X := Vec2.mk x1 x2 in
  let P := Vec2.sub B A in
  0 < Vec2.norm_sqr P ->
  ts.dot A P <= ts.dot X P <= ts.dot B P ->
  Spec.sq_distance_to_segment A B X
    ((ts.cross X P + ts.cross B A) ^ 2 / Vec2.norm_sqr P).
Proof.
  intros A B X P; unfold ts.dot, ts.cross, Spec.sq_distance_to_segment,
    Spec.segment_point, Vec2.norm_sqr; simpl; intros HL Hc.
  set (L := (b1 - a1) * (b1 - a1) + (b2 - a2) * (b2 - a2)) in *.
  set (D := (x1 - a1) * (b1 - a1) + (x2 - a2) * (b2 - a2)).
  assert (HLnz : L <> 0) by lra.
  assert (HD : 0 <= D <= L) by (unfold D, L; lra).
  split.
  - exists (D / L); split.
    + split.
      * apply Rmult_le_pos; [lra | left; now apply Rinv_0_lt_compat].
      * apply (Rmult_le_reg_r L); [exact HL |].
        unfold Rdiv; rewrite Rmult_assoc, Rinv_l by exact HLnz. lra.
    + unfold D, L in *; field; exact HLnz.
  - intros s Hs.
    replace ((a1 + s * (b1 - a1) - x1) * (a1 + s * (b1 - a1) - x1)
             + (a2 + s * (b2 - a2) - x2) * (a2 + s * (b2 - a2) - x2))
      with (((D - s * L) ^ 2
             + (x1 * (b2 - a2) - x2 * (b1 - a1) + (b1 * a2 - b2 * a1)) ^ 2)
            / L)
      by (unfold D, L in *; field; exact HLnz).
    unfold Rdiv; apply Rmult_le_compat_r;
      [left; now apply Rinv_0_lt_compat |].
    pose proof (pow2_ge_0 (D - s * L)). lra.
Qed.

(** C7.  For distinct projected end points [A], [B] and every pixel [X],
    the value [udf] of [Line.do_render] is the squared Euclidean distance
    from [X] to the segment [AB]: the cross-product value
    [(cross(X, B-A) + cross(B, A))^2 / |B-A|^2] when the projection of [X]
    onto [AB] falls within the segment, and the squared distance to the
    end point on whose side the projection falls otherwise. *)
Theorem line_udf_sq_distance :
  forall (A B : vec2) (X : Image.pixel),
    A <> B ->
    let Xv := Vec2.of_int X in
    let P := Vec2.sub B A in
    Spec.sq_distance_to_segment A B Xv (Line.udf A B X)
    /\ (ts.dot A P <= ts.dot Xv P <= ts.dot B P ->
        Line.udf A B X
        = (ts.cross Xv P + ts.cross B A) ^ 2 / Vec2.norm_sqr P)
    /\ (ts.dot B P < ts.dot Xv P ->
        Line.udf A B X = Vec2.norm_sqr (Vec2.sub B Xv)
        /\ Vec2.norm_sqr (Vec2.sub B Xv) <= Vec2.norm_sqr (Vec2.sub A Xv))
    /\ (ts.dot Xv P < ts.dot A P ->
        Line.udf A B X = Vec2.norm_sqr (Vec2.sub A Xv)
        /\ Vec2.norm_sqr (Vec2.sub A Xv) <= Vec2.norm_sqr (Vec2.sub B Xv)).
Proof.
  intros A B X Hne Xv P.
  pose proof (distinct_points_norm_sqr A B Hne) as HL. fold P in HL.
  assert (HB : Vec2.norm_sqr B - ts.dot A B = ts.dot B P)
    by (unfold P, ts.dot, Vec2.norm_sqr, Vec2.sub; simpl; ring).
  assert (HA : ts.dot A B - Vec2.norm_sqr A = ts.dot A P)
    by (unfold P, ts.dot, Vec2.norm_sqr, Vec2.sub; simpl; ring).
  assert (HPP : ts.dot B P - ts.dot A P = Vec2.norm_sqr P)
    by (unfold P, ts.dot, Vec2.norm_sqr, Vec2.sub; simpl; ring).
  unfold Line.udf; cbv zeta; fold Xv P. rewrite HB, HA.
  destruct A as [a1 a2], B as [b1 b2].
  destruct Xv as [x1 x2] eqn:EX.
  destruct (Rlt_dec (ts.dot (Vec2.mk b1 b2) P) (ts.dot (Vec2.mk x1 x2) P))
    as [Hc1 | Hc1];
    [| destruct (Rlt_dec (ts.dot (Vec2.mk x1 x2) P) (ts.dot (Vec2.mk a1 a2) P))
        as [Hc2 | Hc2]].
  - pose proof (sq_distance_beyond_B a1 a2 b1 b2 x1 x2) as Hd.
    cbv zeta in Hd; fold P in Hd. specialize (Hd ltac:(lra)).
    repeat split; try (intros; lra); try exact (proj1 Hd); try exact (proj2 Hd).
    destruct Hd as [_ Hmin]. specialize (Hmin 0 ltac:(lra)).
    unfold Spec.segment_point, Vec2.norm_sqr in *; simpl in *. lra.
  - pose proof (sq_distance_before_A a1 a2 b1 b2 x1 x2) as Hd.
    cbv zeta in Hd; fold P in Hd. specialize (Hd ltac:(lra)).
    repeat split; try (intros; lra); try exact (proj1 Hd); try exact (proj2 Hd).
    destruct Hd as [_ Hmin]. specialize (Hmin 1 ltac:(lra)).
    unfold Spec.segment_point, Vec2.norm_sqr in *; simpl in *. lra.
  - pose proof (sq_distance_within a1 a2 b1 b2 x1 x2) as Hd.
    cbv zeta in Hd; fold P in Hd. specialize (Hd HL ltac:(lra)).
    repeat split; try (intros; lra); try exact (proj1 Hd); try exact (proj2 Hd).
Qed.

Lemma segment_ends_distinct : Vec2.mk 0 0 <> Vec2.mk 10 0.
Proof. intros [= H]; lra. Qed.

(** C7, an instance: the pixel [(5,3)] and the segment from [(0,0)] to
    [(10,0)]. *)
Lemma line_udf_sq_distance_segment :
  Spec.sq_distance_to_segment (Vec2.mk 0 0) (Vec2.mk 10 0)
    (Vec2.of_int (5, 3)%Z)
    (Line.udf (Vec2.mk 0 0) (Vec2.mk 10 0) (5, 3)%Z).
Proof.
  exact (proj1 (line_udf_sq_distance (Vec2.mk 0 0) (Vec2.mk 10 0) (5, 3)%Z
                                     segment_ends_distinct)).
Defined.

(** The pixel [(5,3)] is at squared distance 9 from that segment. *)
Lemma segment_udf_5_3 :
  Line.udf (Vec2.mk 0 0) (Vec2.mk 10 0) (5, 3)%Z = 9.
Proof.
  unfold Line.udf, ts.dot, ts.cross, Vec2.norm_sqr, Vec2.sub, Vec2.of_int;
    simpl.
  destruct (Rlt_dec _ _) as [H | _]; [lra |].
  destruct (Rlt_dec _ _) as [H | _]; [lra |].
  field.
Qed.

(** ** The order of the pixel writes *)

Lemma Rinv_nonneg (r : R) : 0 <= r -> 0 <= / r.
Proof.
  intros [Hpos | <-]; [left; now apply Rinv_0_lt_compat | rewrite Rinv_0; lra].
Qed.

Lemma vec2_norm_sqr_nonneg (v : vec2) : 0 <= Vec2.norm_sqr v.
Proof.
  unfold Vec2.norm_sqr.
  pose proof (Rle_0_sqr (Vec2.x v)); pose proof (Rle_0_sqr (Vec2.y v)).
  unfold Rsqr in *; lra.
Qed.

(** The value [udf] of a line is never negative, so the branch that writes
    white is never taken. *)
Lemma line_udf_nonneg (A B : vec2) (X : Image.pixel) : 0 <= Line.udf A B X.
Proof.
  unfold Line.udf; cbv zeta.
  destruct (Rlt_dec _ _); [apply vec2_norm_sqr_nonneg |].
  destruct (Rlt_dec _ _); [apply vec2_norm_sqr_nonneg |].
  unfold Rdiv; apply Rmult_le_pos;
    [apply pow2_ge_0 | apply Rinv_nonneg, vec2_norm_sqr_nonneg].
Qed.

Lemma vec3_min_swap (o u v : vec3) :
  Vec3.min (Vec3.min o u) v = Vec3.min (Vec3.min o v) u.
Proof.
  unfold Vec3.min; simpl; f_equal;
    rewrite <- !Rmin_assoc; f_equal; apply Rmin_comm.
Qed.


(** The values that two lines give to one pixel commute. *)
Lemma line_pixel_values_commute (A B A' B' : vec2) (X : Image.pixel)
    (old : vec3) :
  Spec.line_pixel_value A B X (Spec.line_pixel_value A' B' X old)
  = Spec.line_pixel_value A' B' X (Spec.line_pixel_value A B X old).
Proof.
  unfold Spec.line_pixel_value; cbv zeta.
  pose proof (line_udf_nonneg A B X); pose proof (line_udf_nonneg A' B' X).
  destruct (Rlt_dec (Line.udf A B X) 0); [lra |].
  destruct (Rlt_dec (Line.udf A' B' X) 0); [lra |].
  destruct (Rlt_dec (Line.udf A B X) (Line.W ^ 2));
    destruct (Rlt_dec (Line.udf A' B' X) (Line.W ^ 2));
    try reflexivity.
  apply vec3_min_swap.
Qed.

(** Drawing two lines in either order gives the same value to every
    pixel. *)
Lemma line_do_render_swap (scene : Scene) (l1 l2 : Line.t) (img : Image.t) :
  Image.same (Line.do_render l2 scene (Line.do_render l1 scene img))
             (Line.do_render l1 scene (Line.do_render l2 scene img)).
Proof.
  intros X. rewrite !line_do_render_at.
  destruct (Spec.line_visits scene l1 X), (Spec.line_visits scene l2 X);
    try reflexivity.
  apply line_pixel_values_commute.
Qed.

(** A line drawn onto two images that agree gives two images that agree. *)
Lemma line_do_render_same (scene : Scene) (l : Line.t) (i j : Image.t) :
  Image.same i j ->
  Image.same (Line.do_render l scene i) (Line.do_render l scene j).
Proof.
  intros Hij X. rewrite !line_do_render_at, (Hij X). reflexivity.
Qed.

Lemma render_lines_same (scene : Scene) (ls : list Line.t) (i j : Image.t) :
  Image.same i j ->
  Image.same (Spec.render_lines scene ls i) (Spec.render_lines scene ls j).
Proof.
  revert i j; induction ls as [|l ls IH]; intros i j Hij; simpl; [exact Hij |].
  apply IH, line_do_render_same, Hij.
Qed.

(** Lines drawn in any order give the same image. *)
Lemma render_lines_permutation (scene : Scene) (ls ls' : list Line.t) :
  Permutation ls ls' ->
  forall i j, Image.same i j ->
    Image.same (Spec.render_lines scene ls i) (Spec.render_lines scene ls' j).
Proof.
  induction 1 as [| l ls ls' _ IH | l1 l2 ls | ls ls' ls'' _ IH1 _ IH2];
    intros i j Hij.
  - exact Hij.
  - simpl. apply IH, line_do_render_same, Hij.
  - simpl. apply render_lines_same. intros X.
    rewrite (line_do_render_swap scene l2 l1 i X).
    apply line_do_render_same, line_do_render_same, Hij.
  - intros X. rewrite (IH1 i i (fun _ => eq_refl) X). apply IH2, Hij.
Qed.

(** C9.  Drawing two lines in either order onto one image, a fresh one
    included, gives the same final image, whether they overlap or not. *)
Theorem line_render_commutes :
  forall (scene : Scene) (l1 l2 : Line.t) (img : Image.t),
    Image.same (Line.do_render l2 scene (Line.do_render l1 scene img))
               (Line.do_render l1 scene (Line.do_render l2 scene img)).
Proof.
  intros scene l1 l2 img X. rewrite !line_do_render_at.
  destruct (Spec.line_visits scene l1 X), (Spec.line_visits scene l2 X);
    try reflexivity.
  apply line_pixel_values_commute.
Qed.

(** C9, an instance: two crossing segments on a black image. *)
Lemma line_render_commutes_crossing :
  Image.same
    (Line.do_render Examples.crossing_segment Examples.scene
       (Line.do_render Examples.segment Examples.scene Examples.black))
    (Line.do_render Examples.segment Examples.scene
       (Line.do_render Examples.crossing_segment Examples.scene
                       Examples.black)).
Proof.
  exact (line_render_commutes Examples.scene Examples.segment
                              Examples.crossing_segment Examples.black).
Defined.

(** A pixel strictly inside a triangle takes the flat colour, whatever it
    held. *)
Lemma triangle_interior_overwrite (scene : Scene) (t : Triangle.t)
    (img : Image.t) (X : Image.pixel) :
  Spec.triangle_visits scene t X = true ->
  Spec.triangle_interior scene t X ->
  Triangle.do_render t scene img X = Triangle.flat_color t scene.
Proof.
  intros Hv Hin. rewrite triangle_do_render_at, Hv.
  unfold Spec.triangle_pixel_value; cbv zeta.
  destruct (Rlt_dec _ 0) as [_ | Hge]; [reflexivity | contradiction].
Qed.



Lemma bright_color :
  Triangle.flat_color Examples.bright_triangle Examples.scene = Vec3.mk 1 1 1.
Proof.
  unfold Triangle.flat_color; simpl; unfold ts.vec3. f_equal; lra.
Qed.


(** [render] on a batch of lines draws its instances in index order. *)
Lemma line_render_as_lines (self : Line.batch) (scene : Scene)
    (img : Image.t) :
  Line.render self scene img
  = Spec.render_lines scene
      (map (Line.make_one self) (seq 0 (Line.shape self))) img.
Proof.
  unfold Line.render, ObjectGE.render, Spec.render_lines.
  generalize (seq 0 (Line.shape self)); intros l; revert img.
  induction l as [|I l IH]; intros img; simpl; [reflexivity | apply IH].
Qed.

(** ** More on balls: the distance field *)

Lemma vec3_norm_sqr_nonneg (v : vec3) : 0 <= Vec3.norm_sqr v.
Proof.
  unfold Vec3.norm_sqr, Vec3.dot.
  pose proof (Rle_0_sqr (Vec3.x v)); pose proof (Rle_0_sqr (Vec3.y v));
    pose proof (Rle_0_sqr (Vec3.z v)).
  unfold Rsqr in *; lra.
Qed.

Lemma vec3_norm_spec (v : vec3) :
  0 <= Vec3.norm v /\ Vec3.norm v * Vec3.norm v = Vec3.norm_sqr v.
Proof.
  unfold Vec3.norm; split; [apply sqrt_pos |].
  apply sqrt_sqrt, vec3_norm_sqr_nonneg.
Qed.

Lemma norm_sqr_sub_sym (u v : vec3) :
  Vec3.norm_sqr (Vec3.sub u v) = Vec3.norm_sqr (Vec3.sub v u).
Proof. unfold Vec3.norm_sqr, Vec3.dot, Vec3.sub; simpl; ring. Qed.

(** X1.  The signed distance of a ball of radius at least 0 is negative exactly
    at the points strictly inside the ball and zero exactly on its
    surface. *)
Theorem do_calc_sdf_sign :
  forall (self : Ball.t) (p : vec3),
    0 <= Ball.radius self ->
    (Ball.do_calc_sdf self p < 0 <-> Geometry.inside_sphere self p)
    /\ (Ball.do_calc_sdf self p = 0 <-> Geometry.on_sphere self p).
Proof.
  intros self p Hr.
  unfold Ball.do_calc_sdf, ts.distance, Geometry.inside_sphere,
    Geometry.on_sphere.
  rewrite (norm_sqr_sub_sym p (Ball.pos self)).
  destruct (vec3_norm_spec (Vec3.sub (Ball.pos self) p)) as [Hn Hsq].
  set (n := Vec3.norm (Vec3.sub (Ball.pos self) p)) in *.
  rewrite <- Hsq. simpl.
  split; split; intros H; nra.
Qed.

(** X1, an instance: the unit ball at the origin and the point at distance 1/2 from its
    centre. *)
Lemma do_calc_sdf_sign_unit_ball :
  (Ball.do_calc_sdf (Ball.mk Examples.origin 1) (Vec3.mk (1 / 2) 0 0) < 0
   <-> Geometry.inside_sphere (Ball.mk Examples.origin 1)
                              (Vec3.mk (1 / 2) 0 0))
  /\ (Ball.do_calc_sdf (Ball.mk Examples.origin 1) (Vec3.mk (1 / 2) 0 0) = 0
      <-> Geometry.on_sphere (Ball.mk Examples.origin 1)
                             (Vec3.mk (1 / 2) 0 0)).
Proof.
  apply (do_calc_sdf_sign (Ball.mk Examples.origin 1) (Vec3.mk (1 / 2) 0 0)).
  simpl; lra.
Defined.

(** The inequality of Cauchy and Schwarz, through the identity of
    Lagrange. *)
Lemma vec3_dot_sqr_le (u v : vec3) :
  Vec3.dot u v * Vec3.dot u v <= Vec3.norm_sqr u * Vec3.norm_sqr v.
Proof.
  destruct u as [u1 u2 u3], v as [v1 v2 v3];
    unfold Vec3.norm_sqr, Vec3.dot; simpl.
  pose proof (Rle_0_sqr (u1 * v2 - u2 * v1)) as H1.
  pose proof (Rle_0_sqr (u2 * v3 - u3 * v2)) as H2.
  pose proof (Rle_0_sqr (u3 * v1 - u1 * v3)) as H3.
  unfold Rsqr in *.
  replace ((u1 * u1 + u2 * u2 + u3 * u3) * (v1 * v1 + v2 * v2 + v3 * v3))
    with ((u1 * v1 + u2 * v2 + u3 * v3) * (u1 * v1 + u2 * v2 + u3 * v3)
          + (u1 * v2 - u2 * v1) * (u1 * v2 - u2 * v1)
          + (u2 * v3 - u3 * v2) * (u2 * v3 - u3 * v2)
          + (u3 * v1 - u1 * v3) * (u3 * v1 - u1 * v3)) by ring.
  lra.
Qed.

Lemma vec3_dot_le_norms (u v : vec3) :
  Vec3.dot u v <= Vec3.norm u * Vec3.norm v.
Proof.
  destruct (vec3_norm_spec u) as [Hu Hu2], (vec3_norm_spec v) as [Hv Hv2].
  pose proof (vec3_dot_sqr_le u v) as Hcs. rewrite <- Hu2, <- Hv2 in Hcs.
  set (s := Vec3.norm u) in *; set (t := Vec3.norm v) in *;
    set (d := Vec3.dot u v) in *.
  destruct (Rle_dec d (s * t)) as [H | H]; [exact H | exfalso].
  assert (0 <= s * t) by (apply Rmult_le_pos; assumption).
  assert (s * t * (s * t) < d * d) by nra.
  nra.
Qed.

(** The triangle inequality of the Euclidean norm. *)
Lemma vec3_norm_triangle (u v : vec3) :
  Vec3.norm (Vec3.add u v) <= Vec3.norm u + Vec3.norm v.
Proof.
  destruct (vec3_norm_spec u) as [Hu Hu2], (vec3_norm_spec v) as [Hv Hv2],
    (vec3_norm_spec (Vec3.add u v)) as [Hw Hw2].
  pose proof (vec3_dot_le_norms u v) as Hd.
  assert (Hexp : Vec3.norm_sqr (Vec3.add u v)
                 = Vec3.norm_sqr u + 2 * Vec3.dot u v + Vec3.norm_sqr v)
    by (unfold Vec3.norm_sqr, Vec3.dot, Vec3.add; simpl; ring).
  rewrite Hexp, <- Hu2, <- Hv2 in Hw2.
  set (s := Vec3.norm u) in *; set (t := Vec3.norm v) in *;
    set (w := Vec3.norm (Vec3.add u v)) in *.
  destruct (Rle_dec w (s + t)) as [H | H]; [exact H | exfalso].
  assert ((s + t) * (s + t) < w * w) by nra.
  nra.
Qed.

Lemma distance_sym (p q : vec3) : ts.distance p q = ts.distance q p.
Proof.
  unfold ts.distance, Vec3.norm. now rewrite norm_sqr_sub_sym.
Qed.

Lemma distance_triangle (a b c : vec3) :
  ts.distance a c <= ts.distance a b + ts.distance b c.
Proof.
  unfold ts.distance.
  replace (Vec3.sub a c) with (Vec3.add (Vec3.sub a b) (Vec3.sub b c)).
  - apply vec3_norm_triangle.
  - unfold Vec3.add, Vec3.sub; simpl; f_equal; ring.
Qed.

(** The signed distance of one ball changes by at most the distance between
    the two points at which it is taken. *)
Lemma do_calc_sdf_lipschitz (self : Ball.t) (p q : vec3) :
  - ts.distance p q <= Ball.do_calc_sdf self p - Ball.do_calc_sdf self q
                    <= ts.distance p q.
Proof.
  unfold Ball.do_calc_sdf.
  pose proof (distance_triangle (Ball.pos self) p q).
  pose proof (distance_triangle (Ball.pos self) q p).
  rewrite (distance_sym q p) in *. lra.
Qed.

(** Two running minima whose start values and whose terms differ by at most
    [d] differ by at most [d]. *)
Lemma fold_Rmin_close (f g : nat -> R) (d : R) (l : list nat) :
  (forall I, - d <= f I - g I <= d) ->
  forall a b, - d <= a - b <= d ->
    - d <= fold_left (fun r I => Rmin r (f I)) l a
           - fold_left (fun r I => Rmin r (g I)) l b <= d.
Proof.
  intros Hfg; induction l as [|I l IH]; intros a b Hab; simpl; [exact Hab |].
  apply IH. specialize (Hfg I).
  unfold Rmin; destruct (Rle_dec a (f I)), (Rle_dec b (g I)); lra.
Qed.

(** X2.  The distance field of a batch of balls is 1-Lipschitz: between two
    points [calc_sdf] changes by at most their distance, so a step of that
    length along a ray cannot cross a surface. *)
Theorem calc_sdf_lipschitz :
  forall (INF : R) (self : Ball.batch) (p q : vec3),
    Rabs (Ball.calc_sdf INF self p - Ball.calc_sdf INF self q)
    <= ts.distance p q.
Proof.
  intros INF self p q. apply Rabs_le.
  unfold Ball.calc_sdf, ObjectRT.calc_sdf, ObjectRT.calc_sdf_step.
  apply (fold_Rmin_close
           (fun I => Ball.do_calc_sdf (Ball.make_one self I) p)
           (fun I => Ball.do_calc_sdf (Ball.make_one self I) q)).
  - intros I; apply do_calc_sdf_lipschitz.
  - assert (0 <= ts.distance p q) by (unfold ts.distance; apply vec3_norm_spec).
    lra.
Qed.

(** ** Batches put end to end *)

Lemma fold_left_ext_in {A B : Type} (f g : A -> B -> A) (l : list B) :
  (forall a x, In x l -> f a x = g a x) ->
  forall a, fold_left f l a = fold_left g l a.
Proof.
  induction l as [|x l IH]; intros Hfg a; simpl; [reflexivity |].
  rewrite (Hfg a x) by now left.
  apply IH. intros a' y Hy; apply Hfg; now right.
Qed.

Lemma fold_left_seq_shift {A : Type} (f g : A -> nat -> A) (n1 : nat) :
  (forall a k, f a (n1 + k)%nat = g a k) ->
  forall n2 s a,
    fold_left f (seq (n1 + s) n2) a = fold_left g (seq s n2) a.
Proof.
  intros Hfg; induction n2 as [|n2 IH]; intros s a; simpl; [reflexivity |].
  rewrite Hfg, <- Nat.add_succ_r. apply IH.
Qed.

(** A loop over the indices of two arrays put end to end is the loop over
    the first followed by the loop over the second. *)
Lemma fold_left_two_batches {A : Type} (f f1 f2 : A -> nat -> A)
    (n1 n2 : nat) (a : A) :
  (forall a I, (I < n1)%nat -> f a I = f1 a I) ->
  (forall a k, f a (n1 + k)%nat = f2 a k) ->
  fold_left f (seq 0 (n1 + n2)) a
  = fold_left f2 (seq 0 n2) (fold_left f1 (seq 0 n1) a).
Proof.
  intros H1 H2. rewrite seq_app, fold_left_app.
  rewrite (fold_left_ext_in f f1 (seq 0 n1))
    by (intros a' I HI; apply H1; apply in_seq in HI; lia).
  change (0 + n1)%nat with n1. rewrite <- (Nat.add_0_r n1) at 1.
  apply fold_left_seq_shift, H2.
Qed.

Lemma make_one_app_l (p1 p2 : list vec3) (r1 r2 : list R) (I : nat) :
  List.length r1 = List.length p1 -> (I < List.length p1)%nat ->
  Ball.make_one (Ball.mk_batch (p1 ++ p2) (r1 ++ r2)) I
  = Ball.make_one (Ball.mk_batch p1 r1) I.
Proof.
  intros Hlen HI; unfold Ball.make_one; simpl.
  rewrite !app_nth1 by lia. reflexivity.
Qed.

Lemma make_one_app_r (p1 p2 : list vec3) (r1 r2 : list R) (k : nat) :
  List.length r1 = List.length p1 ->
  Ball.make_one (Ball.mk_batch (p1 ++ p2) (r1 ++ r2)) (List.length p1 + k)
  = Ball.make_one (Ball.mk_batch p2 r2) k.
Proof.
  intros Hlen; unfold Ball.make_one; simpl.
  rewrite app_nth2_plus, <- Hlen, app_nth2_plus. reflexivity.
Qed.

Lemma fold_Rmin_init (f : nat -> R) (l : list nat) (a b : R) :
  fold_left (fun r I => Rmin r (f I)) l (Rmin a b)
  = Rmin a (fold_left (fun r I => Rmin r (f I)) l b).
Proof.
  revert b; induction l as [|I l IH]; intros b; simpl; [reflexivity |].
  rewrite <- IH, Rmin_assoc. reflexivity.
Qed.

Lemma calc_sdf_le_INF (INF : R) (self : Ball.batch) (p : vec3) :
  Ball.calc_sdf INF self p <= INF.
Proof.
  apply (calc_sdf_is_minimum INF _ _ Ball.shape Ball.make_one
           Ball.do_calc_sdf self p). now left.
Qed.

(** X6.  The distance field of two batches of balls put end to end is the
    smaller of the two fields: [calc_sdf] composes by [min]. *)
Theorem calc_sdf_app :
  forall (INF : R) (p1 p2 : list vec3) (r1 r2 : list R) (p : vec3),
    List.length r1 = List.length p1 ->
    Ball.calc_sdf INF (Ball.mk_batch (p1 ++ p2) (r1 ++ r2)) p
    = Rmin (Ball.calc_sdf INF (Ball.mk_batch p1 r1) p)
           (Ball.calc_sdf INF (Ball.mk_batch p2 r2) p).
Proof.
  intros INF p1 p2 r1 r2 p Hlen.
  pose proof (calc_sdf_le_INF INF (Ball.mk_batch p1 r1) p) as Hle.
  unfold Ball.calc_sdf, ObjectRT.calc_sdf in *.
  unfold Ball.shape at 1; cbn [Ball.pos_arr]. rewrite length_app.
  rewrite (fold_left_two_batches _
             (ObjectRT.calc_sdf_step Ball.make_one Ball.do_calc_sdf
                (Ball.mk_batch p1 r1) p)
             (ObjectRT.calc_sdf_step Ball.make_one Ball.do_calc_sdf
                (Ball.mk_batch p2 r2) p)).
  - change (Ball.shape (Ball.mk_batch p1 r1)) with (List.length p1) in *.
    change (Ball.shape (Ball.mk_batch p2 r2)) with (List.length p2).
    set (c1 := fold_left _ (seq 0 (List.length p1)) INF) in *.
    rewrite <- (Rmin_left c1 INF Hle) at 1.
    apply (fold_Rmin_init
             (fun I => Ball.do_calc_sdf
                         (Ball.make_one (Ball.mk_batch p2 r2) I) p)).
  - intros a I HI; unfold ObjectRT.calc_sdf_step.
    now rewrite make_one_app_l.
  - intros a k; unfold ObjectRT.calc_sdf_step.
    now rewrite make_one_app_r.
Qed.

(** X6, an instance: the two example balls as two batches of one ball each. *)
Lemma calc_sdf_app_two_balls :
  Ball.calc_sdf Examples.INF Examples.two_balls Examples.origin
  = Rmin (Ball.calc_sdf Examples.INF
            (Ball.mk_batch [Vec3.mk 0 0 5] [1]) Examples.origin)
         (Ball.calc_sdf Examples.INF
            (Ball.mk_batch [Vec3.mk 5 0 0] [1]) Examples.origin).
Proof.
  exact (calc_sdf_app Examples.INF [Vec3.mk 0 0 5] [Vec3.mk 5 0 0] [1] [1]
                      Examples.origin eq_refl).
Defined.

(** The loop of [intersect] started from an accumulator that is not above
    [INF] ends at the nearer of that accumulator and of the result of the
    loop, the accumulator winning a tie. *)
Lemma fold_intersect_from (INF : R) (hit : nat -> R * vec3) (l : list nat)
    (acc : R * vec3) :
  fst acc <= INF ->
  let step := fun (a : R * vec3) (I : nat) =>
                if Rlt_dec (fst (hit I)) (fst a) then hit I else a in
  let r := fold_left step l (INF, ts.vec3 0) in
  fold_left step l acc = if Rlt_dec (fst r) (fst acc) then r else acc.
Proof.
  intros Hacc step. induction l as [|I l IH] using rev_ind; simpl.
  - destruct (Rlt_dec INF (fst acc)); [lra | reflexivity].
  - rewrite !fold_left_app; simpl. cbv zeta in IH. rewrite IH.
    generalize (fold_left step l (INF, ts.vec3 0)); intros r.
    unfold step; cbv beta.
    destruct (Rlt_dec (fst r) (fst acc)) as [H1 | H1];
      destruct (Rlt_dec (fst (hit I)) (fst r)) as [H2 | H2];
      destruct (Rlt_dec (fst (hit I)) (fst acc)) as [H3 | H3];
      try lra; try reflexivity;
      repeat match goal with
             | |- context [Rlt_dec ?a ?b] => destruct (Rlt_dec a b)
             end; try lra; try reflexivity.
Qed.

Lemma intersect_le_INF (EPS INF : R) (self : Ball.batch) (orig dir : vec3) :
  fst (Ball.intersect EPS INF self orig dir) <= INF.
Proof.
  destruct (ball_intersect_cases EPS INF self orig dir)
    as [[-> _] | (_ & _ & _ & Hlt & _)]; simpl; lra.
Qed.

(** X7.  The intersection with two batches of balls put end to end is the
    nearer of the two intersections, the first batch winning a tie:
    [intersect] composes over batches as it does over instances. *)
Theorem intersect_app :
  forall (EPS INF : R) (p1 p2 : list vec3) (r1 r2 : list R)
         (orig dir : vec3),
    List.length r1 = List.length p1 ->
    let i1 := Ball.intersect EPS INF (Ball.mk_batch p1 r1) orig dir in
    let i2 := Ball.intersect EPS INF (Ball.mk_batch p2 r2) orig dir in
    Ball.intersect EPS INF (Ball.mk_batch (p1 ++ p2) (r1 ++ r2)) orig dir
    = if Rlt_dec (fst i2) (fst i1) then i2 else i1.
Proof.
  intros EPS INF p1 p2 r1 r2 orig dir Hlen i1 i2.
  pose proof (intersect_le_INF EPS INF (Ball.mk_batch p1 r1) orig dir) as Hle.
  fold i1 in Hle.
  set (hit2 := fun I => Ball.do_intersect EPS INF
                          (Ball.make_one (Ball.mk_batch p2 r2) I) orig dir).
  set (step2 := fun (a : R * vec3) (I : nat) =>
                  if Rlt_dec (fst (hit2 I)) (fst a) then hit2 I else a).
  assert (Hi2 : i2 = fold_left step2 (seq 0 (List.length p2))
                               (INF, ts.vec3 0)).
  { unfold i2, Ball.intersect, ObjectRT.intersect.
    apply fold_left_ext_in. intros a I _. apply intersect_step_unfold. }
  unfold Ball.intersect at 1, ObjectRT.intersect.
  unfold Ball.shape at 1; cbn [Ball.pos_arr]. rewrite length_app.
  rewrite (fold_left_two_batches _
             (ObjectRT.intersect_step Ball.make_one
                (Ball.do_intersect EPS INF) (Ball.mk_batch p1 r1) orig dir)
             step2).
  - change (fold_left _ (seq 0 (List.length p1)) (INF, ts.vec3 0)) with i1.
    rewrite Hi2.
    apply (fold_intersect_from INF hit2 (seq 0 (List.length p2)) i1 Hle).
  - intros a I HI. rewrite !intersect_step_unfold.
    now rewrite make_one_app_l.
  - intros a k. rewrite intersect_step_unfold.
    rewrite make_one_app_r by exact Hlen. reflexivity.
Qed.

(** X7, an instance: the two example balls as two batches of one ball each. *)
Lemma intersect_app_two_balls :
  let i1 := Ball.intersect Examples.EPS Examples.INF
              (Ball.mk_batch [Vec3.mk 0 0 5] [1])
              Examples.origin Examples.x_axis in
  let i2 := Ball.intersect Examples.EPS Examples.INF
              (Ball.mk_batch [Vec3.mk 5 0 0] [1])
              Examples.origin Examples.x_axis in
  Ball.intersect Examples.EPS Examples.INF Examples.two_balls
                 Examples.origin Examples.x_axis
  = if Rlt_dec (fst i2) (fst i1) then i2 else i1.
Proof.
  exact (intersect_app Examples.EPS Examples.INF
           [Vec3.mk 0 0 5] [Vec3.mk 5 0 0] [1] [1]
           Examples.origin Examples.x_axis eq_refl).
Defined.

(** ** The whole batch *)

(** X18.  For a sentinel and radii that are not negative, the distance field of a
    batch of balls is negative exactly at the points strictly inside one of
    the balls. *)
Theorem calc_sdf_negative_inside :
  forall (INF : R) (self : Ball.batch) (p : vec3),
    0 <= INF ->
    (forall I, (I < Ball.shape self)%nat ->
               0 <= Ball.radius (Ball.make_one self I)) ->
    (Ball.calc_sdf INF self p < 0
     <-> exists I, (I < Ball.shape self)%nat
                   /\ Geometry.inside_sphere (Ball.make_one self I) p).
Proof.
  intros INF self p HINF Hrad.
  destruct (calc_sdf_is_minimum INF _ _ Ball.shape Ball.make_one
              Ball.do_calc_sdf self p) as [Hin Hmin].
  fold (Ball.calc_sdf INF self p) in Hin, Hmin.
  assert (Hsign : forall I, (I < Ball.shape self)%nat ->
            (Ball.do_calc_sdf (Ball.make_one self I) p < 0
             <-> Geometry.inside_sphere (Ball.make_one self I) p)).
  { intros I HI. specialize (Hrad I HI).
    unfold Ball.do_calc_sdf, ts.distance, Geometry.inside_sphere.
    rewrite (norm_sqr_sub_sym p).
    destruct (vec3_norm_spec
                (Vec3.sub (Ball.pos (Ball.make_one self I)) p)) as [Hn Hsq].
    rewrite <- Hsq.
    set (n := Vec3.norm _) in *. split; intros H; nra. }
  split.
  - intros Hneg. destruct Hin as [Heq | Hin]; [lra |].
    apply in_map_iff in Hin as (I & Heq & HI).
    apply in_seq in HI. exists I; split; [lia |].
    apply Hsign; [lia |]. now rewrite Heq.
  - intros (I & HI & Hins).
    apply Hsign in Hins; [| exact HI].
    assert (Ball.calc_sdf INF self p
            <= Ball.do_calc_sdf (Ball.make_one self I) p).
    { apply Hmin; right.
      apply in_map_iff; exists I; split; [reflexivity |].
      apply in_seq; lia. }
    lra.
Qed.

Lemma two_balls_radii (I : nat) :
  (I < Ball.shape Examples.two_balls)%nat ->
  0 <= Ball.radius (Ball.make_one Examples.two_balls I).
Proof.
  intros HI; change (I < 2)%nat in HI.
  assert (I = 0 \/ I = 1)%nat as [-> | ->] by lia; simpl; lra.
Qed.

(** X18, an instance: the two example balls and the origin, which is inside neither. *)
Lemma calc_sdf_negative_inside_two_balls :
  Ball.calc_sdf Examples.INF Examples.two_balls Examples.origin < 0
  <-> exists I, (I < Ball.shape Examples.two_balls)%nat
                /\ Geometry.inside_sphere
                     (Ball.make_one Examples.two_balls I) Examples.origin.
Proof.
  apply (calc_sdf_negative_inside Examples.INF Examples.two_balls
           Examples.origin).
  - unfold Examples.INF; lra.
  - exact two_balls_radii.
Defined.

(** ** More on lines *)

Lemma same_refl (i : Image.t) : Image.same i i.
Proof. intros X; reflexivity. Qed.

Lemma same_sym (i j : Image.t) : Image.same i j -> Image.same j i.
Proof. intros H X; symmetry; apply H. Qed.

Lemma same_trans (i j k : Image.t) :
  Image.same i j -> Image.same j k -> Image.same i k.
Proof. intros H1 H2 X; rewrite (H1 X); apply H2. Qed.

(** The value [udf] does not depend on the order of the two end points. *)
Lemma line_udf_sym (A B : vec2) (X : Image.pixel) :
  Line.udf A B X = Line.udf B A X.
Proof.
  destruct A as [a1 a2], B as [b1 b2].
  unfold Line.udf, ts.dot, ts.cross, Vec2.norm_sqr, Vec2.sub, Vec2.of_int;
    simpl.
  set (x := IZR (fst X)); set (y := IZR (snd X)).
  pose proof (Rle_0_sqr (b1 - a1)) as Hp1.
  pose proof (Rle_0_sqr (b2 - a2)) as Hp2. unfold Rsqr in Hp1, Hp2.
  repeat match goal with
         | |- context [Rlt_dec ?u ?v] => destruct (Rlt_dec u v)
         end; try reflexivity; try (exfalso; nra).
  f_equal; ring.
Qed.

Lemma line_scan_sym (A B : vec2) : Line.scan A B = Line.scan B A.
Proof.
  unfold Line.scan, Vec2.min, Vec2.max.
  now rewrite (Rmin_comm (Vec2.x A)), (Rmin_comm (Vec2.y A)),
    (Rmax_comm (Vec2.x A)), (Rmax_comm (Vec2.y A)).
Qed.

(** A line drawn from [b] to [a] gives the same image as the line drawn
    from [a] to [b]. *)
Lemma line_do_render_swap_ends (a b : vec3) (scene : Scene) (img : Image.t) :
  Image.same (Line.do_render (Line.mk b a) scene img)
             (Line.do_render (Line.mk a b) scene img).
Proof.
  intros X. rewrite !line_do_render_at.
  unfold Spec.line_visits, Spec.line_pixel_value; simpl.
  rewrite (line_scan_sym (uncook_coor scene (untrans_pos scene b))).
  rewrite (line_udf_sym (uncook_coor scene (untrans_pos scene b))).
  reflexivity.
Qed.

(** X8.  The image of a line does not depend on which end point is given
    first. *)
Theorem line_render_ends_symmetric :
  forall (a b : vec3) (scene : Scene) (img : Image.t),
    Image.same (Line.do_render (Line.mk b a) scene img)
               (Line.do_render (Line.mk a b) scene img).
Proof. exact line_do_render_swap_ends. Qed.

Lemma vec3_min_le (o v : vec3) : Geometry.channels_le (Vec3.min o v) o.
Proof.
  unfold Geometry.channels_le, Vec3.min; simpl.
  repeat split; apply Rmin_l.
Qed.

Lemma channels_le_refl (o : vec3) : Geometry.channels_le o o.
Proof. unfold Geometry.channels_le; repeat split; lra. Qed.

Lemma vec3_min_idem (o v : vec3) : Vec3.min (Vec3.min o v) v = Vec3.min o v.
Proof.
  unfold Vec3.min; simpl; f_equal;
    unfold Rmin; repeat destruct (Rle_dec _ _); lra.
Qed.

(** The value that a line gives to a pixel: the former value, or its
    element-wise minimum with the coverage. *)
Lemma line_pixel_value_merge (A B : vec2) (X : Image.pixel) (old : vec3) :
  Spec.line_pixel_value A B X old
  = if Rlt_dec (Line.udf A B X) (Line.W ^ 2)
    then Vec3.min old (ts.vec3 (ts.smoothstep (Line.udf A B X) 0 (Line.W ^ 2)))
    else old.
Proof.
  unfold Spec.line_pixel_value; cbv zeta.
  pose proof (line_udf_nonneg A B X).
  destruct (Rlt_dec (Line.udf A B X) 0); [lra | reflexivity].
Qed.

(** X9.  Drawing a line never raises a channel of a pixel, and drawing the same
    line a second time changes nothing. *)
Theorem line_render_darkens_once :
  forall (self : Line.t) (scene : Scene) (img : Image.t) (X : Image.pixel),
    Geometry.channels_le (Line.do_render self scene img X) (img X)
    /\ Line.do_render self scene (Line.do_render self scene img) X
       = Line.do_render self scene img X.
Proof.
  intros self scene img X. rewrite !line_do_render_at.
  destruct (Spec.line_visits scene self X);
    [| split; [apply channels_le_refl | reflexivity]].
  rewrite !line_pixel_value_merge.
  destruct (Rlt_dec _ (Line.W ^ 2));
    [| split; [apply channels_le_refl | reflexivity]].
  split; [apply vec3_min_le | apply vec3_min_idem].
Qed.

(** For distinct end points, [udf] is the squared distance from the pixel
    to the segment. *)
Lemma line_udf_distance (A B : vec2) (X : Image.pixel) :
  A <> B ->
  Spec.sq_distance_to_segment A B (Vec2.of_int X) (Line.udf A B X).
Proof.
  intros Hne.
  pose proof (distinct_points_norm_sqr A B Hne) as HL.
  assert (HB : Vec2.norm_sqr B - ts.dot A B = ts.dot B (Vec2.sub B A))
    by (unfold ts.dot, Vec2.norm_sqr, Vec2.sub; simpl; ring).
  assert (HA : ts.dot A B - Vec2.norm_sqr A = ts.dot A (Vec2.sub B A))
    by (unfold ts.dot, Vec2.norm_sqr, Vec2.sub; simpl; ring).
  unfold Line.udf; cbv zeta. rewrite HB, HA.
  destruct A as [a1 a2], B as [b1 b2].
  destruct (Vec2.of_int X) as [x1 x2].
  set (P := Vec2.sub (Vec2.mk b1 b2) (Vec2.mk a1 a2)) in *.
  destruct (Rlt_dec (ts.dot (Vec2.mk b1 b2) P) (ts.dot (Vec2.mk x1 x2) P))
    as [Hc1 | Hc1];
    [| destruct (Rlt_dec (ts.dot (Vec2.mk x1 x2) P) (ts.dot (Vec2.mk a1 a2) P))
        as [Hc2 | Hc2]].
  - pose proof (sq_distance_beyond_B a1 a2 b1 b2 x1 x2) as Hd.
    cbv zeta in Hd; fold P in Hd. exact (Hd ltac:(lra)).
  - pose proof (sq_distance_before_A a1 a2 b1 b2 x1 x2) as Hd.
    cbv zeta in Hd; fold P in Hd. exact (Hd ltac:(lra)).
  - pose proof (sq_distance_within a1 a2 b1 b2 x1 x2) as Hd.
    cbv zeta in Hd; fold P in Hd. exact (Hd HL ltac:(lra)).
Qed.

(** Between two numbers: a point of the segment lies between the end
    points, coordinate by coordinate. *)
Lemma between_min_max (a b s : R) :
  0 <= s <= 1 -> Rmin a b <= a + s * (b - a) <= Rmax a b.
Proof.
  intros Hs. unfold Rmin, Rmax; destruct (Rle_dec a b); split; nra.
Qed.

Lemma sqr_lt_1 (d e : R) : d * d + e * e < 1 -> -1 < d < 1.
Proof. intros H; pose proof (Rle_0_sqr e) as He; unfold Rsqr in He; nra. Qed.

(** The scanned rectangle contains every pixel that is nearer than [W] to
    the segment. *)
Lemma line_capsule_scanned (A B : vec2) (X : Image.pixel) :
  A <> B -> Line.udf A B X < Line.W ^ 2 -> In X (Line.scan A B).
Proof.
  intros Hne Hlt.
  destruct (line_udf_distance A B X Hne) as [(s & Hs & Hd) _].
  rewrite <- Hd in Hlt. unfold Line.W in Hlt.
  destruct A as [a1 a2], B as [b1 b2].
  unfold Spec.segment_point, Vec2.norm_sqr, Vec2.sub, Vec2.add, Vec2.scale,
    Vec2.of_int in Hlt; simpl in Hlt.
  rewrite !Rmult_1_r in Hlt.
  pose proof (sqr_lt_1 _ _ Hlt) as Hx.
  rewrite Rplus_comm in Hlt. pose proof (sqr_lt_1 _ _ Hlt) as Hy.
  pose proof (between_min_max a1 b1 s Hs).
  pose proof (between_min_max a2 b2 s Hs).
  unfold Line.scan; apply In_scan_box; unfold Line.W; simpl; lra.
Qed.

(** X10.  For distinct projected end points, a line changes exactly the pixels
    whose squared distance from the segment is below [W^2 = 1], each to the
    minimum of its value and the coverage; no such pixel is cut off by the
    scanned rectangle, and every other pixel of the image is left as it
    was. *)
Theorem line_render_capsule :
  forall (self : Line.t) (scene : Scene) (img : Image.t) (X : Image.pixel),
    let A := uncook_coor scene (untrans_pos scene (Line.a self)) in
    let B := uncook_coor scene (untrans_pos scene (Line.b self)) in
    let udf := Line.udf A B X in
    A <> B ->
    Spec.sq_distance_to_segment A B (Vec2.of_int X) udf
    /\ Line.do_render self scene img X
       = if Rlt_dec udf (Line.W ^ 2) then
           Vec3.min (img X) (ts.vec3 (ts.smoothstep udf 0 (Line.W ^ 2)))
         else img X.
Proof.
  intros self scene img X A B udf Hne.
  split.
  - exact (line_udf_distance A B X Hne).
  - rewrite line_do_render_at. fold A B.
    rewrite line_pixel_value_merge. fold udf.
    unfold Spec.line_visits; fold A B.
    destruct (existsb (Image.pixel_eqb X) (Line.scan A B)) eqn:E;
      [reflexivity |].
    destruct (Rlt_dec udf (Line.W ^ 2)) as [Hlt | _]; [| reflexivity].
    apply (line_capsule_scanned A B X Hne) in Hlt.
    apply existsb_pixel_In in Hlt. congruence.
Qed.

Lemma example_segment_distinct :
  uncook_coor Examples.scene
    (untrans_pos Examples.scene (Line.a Examples.segment))
  <> uncook_coor Examples.scene
       (untrans_pos Examples.scene (Line.b Examples.segment)).
Proof. simpl; intros [= H]; lra. Qed.

(** X10, an instance: the example segment and a pixel far away from it. *)
Lemma line_render_capsule_segment :
  let A := uncook_coor Examples.scene
             (untrans_pos Examples.scene (Line.a Examples.segment)) in
  let B := uncook_coor Examples.scene
             (untrans_pos Examples.scene (Line.b Examples.segment)) in
  let udf := Line.udf A B (5, 3)%Z in
  Spec.sq_distance_to_segment A B (Vec2.of_int (5, 3)%Z) udf
  /\ Line.do_render Examples.segment Examples.scene Examples.black (5, 3)%Z
     = if Rlt_dec udf (Line.W ^ 2) then
         Vec3.min (Examples.black (5, 3)%Z)
                  (ts.vec3 (ts.smoothstep udf 0 (Line.W ^ 2)))
       else Examples.black (5, 3)%Z.
Proof.
  exact (line_render_capsule Examples.segment Examples.scene Examples.black
           (5, 3)%Z example_segment_distinct).
Defined.

(** ** More on triangles *)

Lemma inv_length_nonneg (v : vec2) :
  0 <= 1 / ts.length v /\ (0 < Vec2.norm_sqr v -> 0 < 1 / ts.length v).
Proof.
  unfold ts.length, Rdiv; rewrite Rmult_1_l; split.
  - apply Rinv_nonneg, sqrt_pos.
  - intros H; apply Rinv_0_lt_compat, sqrt_lt_R0, H.
Qed.

(** Each edge function is the cross product of the vector from the first
    corner of the edge to the pixel with the edge, times the inverse of the
    length of the edge. *)
Lemma edge_functions_form (A B C : vec2) (X : Image.pixel) :
  let Xv := Vec2.of_int X in
  Triangle.edge_functions A B C X
  = (1 / ts.length (Vec2.sub B A) * ts.cross (Vec2.sub Xv A) (Vec2.sub B A),
     1 / ts.length (Vec2.sub C B) * ts.cross (Vec2.sub Xv B) (Vec2.sub C B),
     1 / ts.length (Vec2.sub A C) * ts.cross (Vec2.sub Xv C) (Vec2.sub A C)).
Proof.
  unfold Triangle.edge_functions; cbv zeta.
  generalize (1 / ts.length (Vec2.sub B A)), (1 / ts.length (Vec2.sub C B)),
    (1 / ts.length (Vec2.sub A C)); intros k1 k2 k3.
  unfold ts.cross, Vec2.sub, Vec2.scale; simpl.
  f_equal; [f_equal |]; ring.
Qed.

Lemma edge_cross_sum (A B C Xv : vec2) :
  ts.cross (Vec2.sub Xv A) (Vec2.sub B A)
  + ts.cross (Vec2.sub Xv B) (Vec2.sub C B)
  + ts.cross (Vec2.sub Xv C) (Vec2.sub A C)
  = - Geometry.area2 A B C.
Proof. unfold Geometry.area2, ts.cross, Vec2.sub; simpl; ring. Qed.

(** When the corners are not in counter-clockwise order, some edge function
    is not negative. *)
Lemma clockwise_udf_nonneg (A B C : vec2) (X : Image.pixel) :
  Geometry.area2 A B C <= 0 -> 0 <= Triangle.udf A B C X.
Proof.
  intros Harea. unfold Triangle.udf.
  rewrite edge_functions_form; cbv zeta.
  pose proof (edge_cross_sum A B C (Vec2.of_int X)) as Hsum.
  destruct (inv_length_nonneg (Vec2.sub B A)) as [H1 _],
    (inv_length_nonneg (Vec2.sub C B)) as [H2 _],
    (inv_length_nonneg (Vec2.sub A C)) as [H3 _].
  revert H1 H2 H3 Hsum.
  generalize (1 / ts.length (Vec2.sub B A)), (1 / ts.length (Vec2.sub C B)),
    (1 / ts.length (Vec2.sub A C)),
    (ts.cross (Vec2.sub (Vec2.of_int X) A) (Vec2.sub B A)),
    (ts.cross (Vec2.sub (Vec2.of_int X) B) (Vec2.sub C B)),
    (ts.cross (Vec2.sub (Vec2.of_int X) C) (Vec2.sub A C)).
  intros k1 k2 k3 e1 e2 e3 H1 H2 H3 Hsum.
  destruct (Rle_dec 0 (k1 * e1)) as [Ha | Ha];
    [pose proof (Rmax_l (k1 * e1) (k2 * e2));
     pose proof (Rmax_l (Rmax (k1 * e1) (k2 * e2)) (k3 * e3)); lra |].
  destruct (Rle_dec 0 (k2 * e2)) as [Hb | Hb];
    [pose proof (Rmax_r (k1 * e1) (k2 * e2));
     pose proof (Rmax_l (Rmax (k1 * e1) (k2 * e2)) (k3 * e3)); lra |].
  destruct (Rle_dec 0 (k3 * e3)) as [Hc | Hc];
    [pose proof (Rmax_r (Rmax (k1 * e1) (k2 * e2)) (k3 * e3)); lra |].
  exfalso.
  assert (e1 < 0) by nra. assert (e2 < 0) by nra. assert (e3 < 0) by nra.
  lra.
Qed.

Lemma vec3_le_max (o v : vec3) : Geometry.channels_le o (Vec3.max o v).
Proof.
  unfold Geometry.channels_le, Vec3.max; simpl.
  repeat split; apply Rmax_l.
Qed.

(** X11.  Back faces are not filled.  A triangle whose three projected corners are
    distinct and not in counter-clockwise order ([cross(B - A, C - A) <= 0])
    has [udf >= 0] at every pixel: it overwrites none, and no channel of
    any pixel gets smaller. *)
Theorem triangle_back_face_not_filled :
  forall (self : Triangle.t) (scene : Scene) (img : Image.t)
         (X : Image.pixel),
    let A := uncook_coor scene (untrans_pos scene (Triangle.a self)) in
    let B := uncook_coor scene (untrans_pos scene (Triangle.b self)) in
    let C := uncook_coor scene (untrans_pos scene (Triangle.c self)) in
    A <> B -> B <> C -> C <> A ->
    Geometry.area2 A B C <= 0 ->
    0 <= Triangle.udf A B C X
    /\ Geometry.channels_le (img X) (Triangle.do_render self scene img X).
Proof.
  intros self scene img X A B C _ _ _ Harea.
  pose proof (clockwise_udf_nonneg A B C X Harea) as Hudf.
  split; [exact Hudf |].
  rewrite triangle_do_render_at. fold A B C.
  destruct (Spec.triangle_visits scene self X); [| apply channels_le_refl].
  unfold Spec.triangle_pixel_value; cbv zeta.
  destruct (Rlt_dec (Triangle.udf A B C X) 0); [lra |].
  destruct (Rlt_dec (Triangle.udf A B C X) Triangle.W);
    [apply vec3_le_max | apply channels_le_refl].
Qed.

(** X11, an instance: the example triangle seen from the back, at the pixel [(2,2)]. *)
Lemma triangle_back_face_example :
  let A := uncook_coor Examples.scene
             (untrans_pos Examples.scene (Triangle.a Examples.back_triangle)) in
  let B := uncook_coor Examples.scene
             (untrans_pos Examples.scene (Triangle.b Examples.back_triangle)) in
  let C := uncook_coor Examples.scene
             (untrans_pos Examples.scene (Triangle.c Examples.back_triangle)) in
  0 <= Triangle.udf A B C (2, 2)%Z
  /\ Geometry.channels_le
       (Examples.black (2, 2)%Z)
       (Triangle.do_render Examples.back_triangle Examples.scene
                           Examples.black (2, 2)%Z).
Proof.
  apply (triangle_back_face_not_filled Examples.back_triangle Examples.scene
           Examples.black (2, 2)%Z).
  - simpl; intros [= H]; lra.
  - simpl; intros [= H]; lra.
  - simpl; intros [= H]; lra.
  - unfold Geometry.area2, ts.cross; simpl; lra.
Defined.

Lemma cross_nonzero_norm_pos (u v : vec2) :
  ts.cross u v <> 0 -> 0 < Vec2.norm_sqr u.
Proof.
  destruct u as [u1 u2], v as [v1 v2];
    unfold ts.cross, Vec2.norm_sqr; simpl; intros Hc.
  pose proof (Rle_0_sqr u1) as H1; pose proof (Rle_0_sqr u2) as H2.
  unfold Rsqr in H1, H2.
  destruct (Req_dec u1 0) as [-> | Hu1].
  - destruct (Req_dec u2 0) as [-> | Hu2]; [exfalso; apply Hc; ring |].
    assert (0 < u2 * u2) by nra. lra.
  - assert (0 < u1 * u1) by nra. lra.
Qed.

(** A point [A + beta (B - A) + gamma (C - A)] with positive weights lies
    between the least and the largest of the three coordinates. *)
Lemma combination_between (a b c beta gamma : R) :
  0 < beta -> 0 < gamma -> beta + gamma < 1 ->
  Rmin (Rmin a b) c <= a + beta * (b - a) + gamma * (c - a)
                    <= Rmax (Rmax a b) c.
Proof.
  intros Hb Hg Hbg.
  assert (Hlo : forall m, m <= a -> m <= b -> m <= c ->
                          m <= a + beta * (b - a) + gamma * (c - a)).
  { intros m Ha Hb' Hc.
    replace (a + beta * (b - a) + gamma * (c - a))
      with (m + ((1 - beta - gamma) * (a - m) + beta * (b - m)
                 + gamma * (c - m))) by ring.
    assert (0 <= (1 - beta - gamma) * (a - m)) by (apply Rmult_le_pos; lra).
    assert (0 <= beta * (b - m)) by (apply Rmult_le_pos; lra).
    assert (0 <= gamma * (c - m)) by (apply Rmult_le_pos; lra).
    lra. }
  assert (Hhi : forall m, a <= m -> b <= m -> c <= m ->
                          a + beta * (b - a) + gamma * (c - a) <= m).
  { intros m Ha Hb' Hc.
    replace (a + beta * (b - a) + gamma * (c - a))
      with (m - ((1 - beta - gamma) * (m - a) + beta * (m - b)
                 + gamma * (m - c))) by ring.
    assert (0 <= (1 - beta - gamma) * (m - a)) by (apply Rmult_le_pos; lra).
    assert (0 <= beta * (m - b)) by (apply Rmult_le_pos; lra).
    assert (0 <= gamma * (m - c)) by (apply Rmult_le_pos; lra).
    lra. }
  split.
  - apply Hlo.
    + eapply Rle_trans; [apply Rmin_l | apply Rmin_l].
    + eapply Rle_trans; [apply Rmin_l | apply Rmin_r].
    + apply Rmin_r.
  - apply Hhi.
    + eapply Rle_trans; [apply Rmax_l | apply Rmax_l].
    + eapply Rle_trans; [apply Rmax_r | apply Rmax_l].
    + apply Rmax_r.
Qed.

(** A pixel strictly inside a counter-clockwise triangle has [udf < 0]. *)
Lemma interior_udf_negative (A B C : vec2) (X : Image.pixel)
    (beta gamma : R) :
  0 < Geometry.area2 A B C ->
  0 < beta -> 0 < gamma -> beta + gamma < 1 ->
  Vec2.of_int X = Geometry.combination A B C beta gamma ->
  Triangle.udf A B C X < 0.
Proof.
  intros Harea Hb Hg Hbg HX.
  unfold Triangle.udf. rewrite edge_functions_form; cbv zeta. rewrite HX.
  assert (N1 : 0 < Vec2.norm_sqr (Vec2.sub B A)).
  { apply (cross_nonzero_norm_pos _ (Vec2.sub C A)).
    fold (Geometry.area2 A B C); lra. }
  assert (N2 : 0 < Vec2.norm_sqr (Vec2.sub C B)).
  { apply (cross_nonzero_norm_pos _ (Vec2.sub A B)).
    replace (ts.cross (Vec2.sub C B) (Vec2.sub A B))
      with (Geometry.area2 A B C)
      by (unfold Geometry.area2, ts.cross, Vec2.sub; simpl; ring).
    lra. }
  assert (N3 : 0 < Vec2.norm_sqr (Vec2.sub A C)).
  { apply (cross_nonzero_norm_pos _ (Vec2.sub B C)).
    replace (ts.cross (Vec2.sub A C) (Vec2.sub B C))
      with (Geometry.area2 A B C)
      by (unfold Geometry.area2, ts.cross, Vec2.sub; simpl; ring).
    lra. }
  pose proof (proj2 (inv_length_nonneg _) N1) as K1.
  pose proof (proj2 (inv_length_nonneg _) N2) as K2.
  pose proof (proj2 (inv_length_nonneg _) N3) as K3.
  assert (E1 : ts.cross (Vec2.sub (Geometry.combination A B C beta gamma) A)
                        (Vec2.sub B A)
               = - gamma * Geometry.area2 A B C)
    by (unfold Geometry.combination, Geometry.area2, ts.cross, Vec2.sub,
          Vec2.add, Vec2.scale; simpl; ring).
  assert (E2 : ts.cross (Vec2.sub (Geometry.combination A B C beta gamma) B)
                        (Vec2.sub C B)
               = - (1 - beta - gamma) * Geometry.area2 A B C)
    by (unfold Geometry.combination, Geometry.area2, ts.cross, Vec2.sub,
          Vec2.add, Vec2.scale; simpl; ring).
  assert (E3 : ts.cross (Vec2.sub (Geometry.combination A B C beta gamma) C)
                        (Vec2.sub A C)
               = - beta * Geometry.area2 A B C)
    by (unfold Geometry.combination, Geometry.area2, ts.cross, Vec2.sub,
          Vec2.add, Vec2.scale; simpl; ring).
  rewrite E1, E2, E3.
  revert K1 K2 K3.
  generalize (1 / ts.length (Vec2.sub B A)), (1 / ts.length (Vec2.sub C B)),
    (1 / ts.length (Vec2.sub A C)), (Geometry.area2 A B C) at 1 2 3, Harea.
  intros k1 k2 k3 D HD K1 K2 K3.
  assert (0 < gamma * D) by (apply Rmult_lt_0_compat; lra).
  assert (0 < (1 - beta - gamma) * D) by (apply Rmult_lt_0_compat; lra).
  assert (0 < beta * D) by (apply Rmult_lt_0_compat; lra).
  apply Rmax_lub_lt; [apply Rmax_lub_lt |]; nra.
Qed.

Lemma interior_scanned (A B C : vec2) (X : Image.pixel) (beta gamma : R) :
  0 < beta -> 0 < gamma -> beta + gamma < 1 ->
  Vec2.of_int X = Geometry.combination A B C beta gamma ->
  In X (Triangle.scan A B C).
Proof.
  intros Hb Hg Hbg HX.
  destruct A as [a1 a2], B as [b1 b2], C as [c1 c2].
  unfold Geometry.combination, Vec2.of_int, Vec2.add, Vec2.scale, Vec2.sub
    in HX; simpl in HX.
  injection HX as Hx Hy.
  pose proof (combination_between a1 b1 c1 beta gamma Hb Hg Hbg).
  pose proof (combination_between a2 b2 c2 beta gamma Hb Hg Hbg).
  unfold Triangle.scan; apply In_scan_box; unfold Triangle.W; simpl;
    rewrite ?Hx, ?Hy; lra.
Qed.

(** X12.  Front faces are filled.  For projected corners in counter-clockwise
    order, every pixel strictly inside the triangle (a combination of the
    corners with positive weights) has the flat colour of the triangle
    after the call, whatever it held. *)
Theorem triangle_front_face_filled :
  forall (self : Triangle.t) (scene : Scene) (img : Image.t)
         (X : Image.pixel) (beta gamma : R),
    let A := uncook_coor scene (untrans_pos scene (Triangle.a self)) in
    let B := uncook_coor scene (untrans_pos scene (Triangle.b self)) in
    let C := uncook_coor scene (untrans_pos scene (Triangle.c self)) in
    0 < Geometry.area2 A B C ->
    0 < beta -> 0 < gamma -> beta + gamma < 1 ->
    Vec2.of_int X = Geometry.combination A B C beta gamma ->
    Triangle.do_render self scene img X = Triangle.flat_color self scene.
Proof.
  intros self scene img X beta gamma A B C Harea Hb Hg Hbg HX.
  apply triangle_interior_overwrite.
  - unfold Spec.triangle_visits; fold A B C.
    apply existsb_pixel_In.
    exact (interior_scanned A B C X beta gamma Hb Hg Hbg HX).
  - unfold Spec.triangle_interior; fold A B C.
    exact (interior_udf_negative A B C X beta gamma Harea Hb Hg Hbg HX).
Qed.

(** X12, an instance: the pixel [(2,2)] of the example triangle, with weights 1/5 and 1/5. *)
Lemma triangle_front_face_example :
  Triangle.do_render Examples.bright_triangle Examples.scene Examples.black
                     (2, 2)%Z
  = Triangle.flat_color Examples.bright_triangle Examples.scene.
Proof.
  apply (triangle_front_face_filled Examples.bright_triangle Examples.scene
           Examples.black (2, 2)%Z (1 / 5) (1 / 5)).
  - unfold Geometry.area2, ts.cross; simpl; lra.
  - lra.
  - lra.
  - lra.
  - unfold Geometry.combination, Vec2.of_int, Vec2.add, Vec2.scale, Vec2.sub;
      simpl; f_equal; lra.
Defined.

(** ** Outlines *)

Lemma do_render_stroke_as_lines (self : Triangle.t) (scene : Scene)
    (img : Image.t) :
  Triangle.do_render_stroke self scene img
  = Spec.render_lines scene (Geometry.edges self) img.
Proof. reflexivity. Qed.

(** A line with its end points exchanged, drawn onto an image that agrees
    with another, agrees with the line drawn onto the other. *)
Lemma line_do_render_flip (a b : vec3) (scene : Scene) (i j : Image.t) :
  Image.same i j ->
  Image.same (Line.do_render (Line.mk b a) scene i)
             (Line.do_render (Line.mk a b) scene j).
Proof.
  intros Hij.
  apply (same_trans _ (Line.do_render (Line.mk a b) scene i)).
  - apply line_do_render_swap_ends.
  - apply line_do_render_same, Hij.
Qed.

(** X13.  The outline of a triangle does not depend on the order in which its
    corners are given: turning the corners round ([b, c, a]) or exchanging
    two of them ([b, a, c]) gives the same image, unlike the filled
    triangle. *)
Theorem triangle_stroke_corner_order :
  forall (a b c : vec3) (scene : Scene) (img : Image.t),
    Image.same (Triangle.do_render_stroke (Triangle.mk b c a) scene img)
               (Triangle.do_render_stroke (Triangle.mk a b c) scene img)
    /\ Image.same (Triangle.do_render_stroke (Triangle.mk b a c) scene img)
                  (Triangle.do_render_stroke (Triangle.mk a b c) scene img).
Proof.
  intros a b c scene img; split.
  - rewrite !do_render_stroke_as_lines.
    apply render_lines_permutation; [| apply same_refl].
    unfold Geometry.edges; simpl.
    apply Permutation_sym.
    exact (Permutation_cons_append [Line.mk c a; Line.mk a b] (Line.mk b c)).
  - apply (same_trans _
             (Spec.render_lines scene
                [Line.mk c a; Line.mk b c; Line.mk a b] img)).
    + rewrite do_render_stroke_as_lines.
      unfold Geometry.edges, Spec.render_lines; simpl.
      apply line_do_render_flip, line_do_render_flip, line_do_render_flip,
        same_refl.
    + rewrite do_render_stroke_as_lines.
      apply render_lines_permutation; [| apply same_refl].
      unfold Geometry.edges; simpl. apply perm_swap.
Qed.

Lemma render_lines_app (scene : Scene) (l1 l2 : list Line.t)
    (img : Image.t) :
  Spec.render_lines scene (l1 ++ l2) img
  = Spec.render_lines scene l2 (Spec.render_lines scene l1 img).
Proof. unfold Spec.render_lines; apply fold_left_app. Qed.

Lemma render_stroke_as_lines (self : Triangle.batch) (scene : Scene)
    (img : Image.t) :
  Triangle.render_stroke self scene img
  = Spec.render_lines scene (Geometry.batch_edges self) img.
Proof.
  unfold Triangle.render_stroke, ObjectGE.render_stroke, Geometry.batch_edges.
  generalize (seq 0 (Triangle.shape self)); intros l; revert img.
  induction l as [|I l IH]; intros img; [reflexivity |].
  cbn [fold_left flat_map].
  rewrite render_lines_app, <- do_render_stroke_as_lines. apply IH.
Qed.

(** X14.  The outline of a batch of triangles is the image of all their edges as
    lines, drawn in any order whatever. *)
Theorem triangle_render_stroke_any_order :
  forall (self : Triangle.batch) (scene : Scene) (img : Image.t)
         (ls : list Line.t),
    Permutation ls (Geometry.batch_edges self) ->
    Image.same (Triangle.render_stroke self scene img)
               (Spec.render_lines scene ls img).
Proof.
  intros self scene img ls Hperm.
  rewrite render_stroke_as_lines.
  apply render_lines_permutation; [| apply same_refl].
  apply Permutation_sym, Hperm.
Qed.

(** X14, an instance: the three edges of the example triangle, last edge first. *)
Lemma triangle_render_stroke_reversed :
  Image.same
    (Triangle.render_stroke Examples.bright_batch Examples.scene
                            Examples.black)
    (Spec.render_lines Examples.scene
       (rev (Geometry.batch_edges Examples.bright_batch)) Examples.black).
Proof.
  apply (triangle_render_stroke_any_order Examples.bright_batch
           Examples.scene Examples.black).
  apply Permutation_sym, Permutation_rev.
Defined.

(** ** Batches of triangles put end to end *)





(** ** The range of the pixel values *)

Lemma clamp_unit (x : R) : 0 <= ts.clamp x 0 1 <= 1.
Proof.
  unfold ts.clamp; split; [| apply Rmin_l].
  apply Rmin_glb; [lra | apply Rmax_l].
Qed.

(** The coverage is a number between 0 and 1. *)
Lemma smoothstep_unit (x a b : R) : 0 <= ts.smoothstep x a b <= 1.
Proof.
  unfold ts.smoothstep; cbv zeta.
  pose proof (clamp_unit ((x - a) / (b - a))) as Ht.
  set (t := ts.clamp ((x - a) / (b - a)) 0 1) in *.
  split.
  - apply Rmult_le_pos; [apply Rmult_le_pos |]; lra.
  - replace (t * t * (3 - 2 * t))
      with (1 - (1 - t) * (1 - t) * (1 + 2 * t)) by ring.
    assert (0 <= (1 - t) * (1 - t) * (1 + 2 * t))
      by (apply Rmult_le_pos; [apply Rmult_le_pos |]; lra).
    lra.
Qed.

Lemma vec3_min_unit (o v : vec3) :
  Geometry.channels_in_unit o -> Geometry.channels_in_unit v ->
  Geometry.channels_in_unit (Vec3.min o v).
Proof.
  unfold Geometry.channels_in_unit, Geometry.channels_le, Vec3.min; simpl.
  intros [(? & ? & ?) (? & ? & ?)] [(? & ? & ?) (? & ? & ?)].
  repeat split; unfold Rmin; repeat destruct (Rle_dec _ _); lra.
Qed.

Lemma vec3_max_unit (o v : vec3) :
  Geometry.channels_in_unit o -> Geometry.channels_in_unit v ->
  Geometry.channels_in_unit (Vec3.max o v).
Proof.
  unfold Geometry.channels_in_unit, Geometry.channels_le, Vec3.max; simpl.
  intros [(? & ? & ?) (? & ? & ?)] [(? & ? & ?) (? & ? & ?)].
  repeat split; unfold Rmax; repeat destruct (Rle_dec _ _); lra.
Qed.

Lemma splat_unit (t : R) :
  0 <= t <= 1 -> Geometry.channels_in_unit (ts.vec3 t).
Proof.
  unfold Geometry.channels_in_unit, Geometry.channels_le, ts.vec3; simpl.
  intros [? ?]; repeat split; lra.
Qed.

Lemma scale_unit (t : R) (v : vec3) :
  0 <= t <= 1 -> Geometry.channels_in_unit v ->
  Geometry.channels_in_unit (Vec3.scale t v).
Proof.
  unfold Geometry.channels_in_unit, Geometry.channels_le, Vec3.scale; simpl.
  intros [? ?] [(? & ? & ?) (? & ? & ?)].
  repeat split; nra.
Qed.

(** X16.  Drawing a line keeps every pixel whose channels lie between 0 and 1
    within that range. *)
Theorem line_render_keeps_unit_range :
  forall (self : Line.t) (scene : Scene) (img : Image.t) (X : Image.pixel),
    Geometry.channels_in_unit (img X) ->
    Geometry.channels_in_unit (Line.do_render self scene img X).
Proof.
  intros self scene img X Hold. rewrite line_do_render_at.
  destruct (Spec.line_visits scene self X); [| exact Hold].
  rewrite line_pixel_value_merge.
  destruct (Rlt_dec _ (Line.W ^ 2)); [| exact Hold].
  apply vec3_min_unit; [exact Hold | apply splat_unit, smoothstep_unit].
Qed.

Lemma black_unit (X : Image.pixel) :
  Geometry.channels_in_unit (Examples.black X).
Proof. apply splat_unit; lra. Qed.

(** X16, an instance: the example segment on the black image. *)
Lemma line_render_keeps_unit_range_segment :
  Geometry.channels_in_unit
    (Line.do_render Examples.segment Examples.scene Examples.black (5, 0)%Z).
Proof.
  exact (line_render_keeps_unit_range Examples.segment Examples.scene
           Examples.black (5, 0)%Z (black_unit (5, 0)%Z)).
Defined.

(** X17.  Filling a triangle whose flat colour has its channels between 0 and 1
    keeps every pixel whose channels lie in that range within it. *)
Theorem triangle_render_keeps_unit_range :
  forall (self : Triangle.t) (scene : Scene) (img : Image.t)
         (X : Image.pixel),
    Geometry.channels_in_unit (Triangle.flat_color self scene) ->
    Geometry.channels_in_unit (img X) ->
    Geometry.channels_in_unit (Triangle.do_render self scene img X).
Proof.
  intros self scene img X Hcol Hold. rewrite triangle_do_render_at.
  destruct (Spec.triangle_visits scene self X); [| exact Hold].
  unfold Spec.triangle_pixel_value; cbv zeta.
  destruct (Rlt_dec _ 0); [exact Hcol |].
  destruct (Rlt_dec _ Triangle.W); [| exact Hold].
  apply vec3_max_unit; [exact Hold |].
  apply scale_unit; [apply smoothstep_unit | exact Hcol].
Qed.

Lemma bright_color_unit :
  Geometry.channels_in_unit
    (Triangle.flat_color Examples.bright_triangle Examples.scene).
Proof.
  rewrite bright_color.
  unfold Geometry.channels_in_unit, Geometry.channels_le; simpl.
  repeat split; lra.
Qed.

(** X17, an instance: the white example triangle on the black image. *)
Lemma triangle_render_keeps_unit_range_bright :
  Geometry.channels_in_unit
    (Triangle.do_render Examples.bright_triangle Examples.scene
                        Examples.black (2, 2)%Z).
Proof.
  exact (triangle_render_keeps_unit_range Examples.bright_triangle
           Examples.scene Examples.black (2, 2)%Z
           bright_color_unit (black_unit (2, 2)%Z)).
Defined.

(** ** The pixels on the segment *)

Lemma smoothstep_at_edge (b : R) : ts.smoothstep 0 0 b = 0.
Proof.
  unfold ts.smoothstep, ts.clamp; cbv zeta.
  replace ((0 - 0) / (b - 0)) with 0 by (unfold Rdiv; ring).
  rewrite (Rmax_left 0 0) by lra. rewrite (Rmin_right 1 0) by lra. ring.
Qed.

(** X20.  For distinct projected end points, a pixel that lies on the segment
    itself gets the coverage 0: it ends as the element-wise minimum of its
    former value and [vec3(0)]. *)
Theorem line_render_on_segment :
  forall (self : Line.t) (scene : Scene) (img : Image.t) (X : Image.pixel)
         (s : R),
    let A := uncook_coor scene (untrans_pos scene (Line.a self)) in
    let B := uncook_coor scene (untrans_pos scene (Line.b self)) in
    A <> B ->
    0 <= s <= 1 ->
    Vec2.of_int X = Spec.segment_point A B s ->
    Line.do_render self scene img X = Vec3.min (img X) (ts.vec3 0).
Proof.
  intros self scene img X s A B Hne Hs HX.
  assert (Hudf : Line.udf A B X = 0).
  { destruct (line_udf_distance A B X Hne) as [_ Hmin].
    specialize (Hmin s Hs). rewrite <- HX in Hmin.
    replace (Vec2.norm_sqr (Vec2.sub (Vec2.of_int X) (Vec2.of_int X)))
      with 0 in Hmin
      by (unfold Vec2.norm_sqr, Vec2.sub; simpl; ring).
    pose proof (line_udf_nonneg A B X). lra. }
  assert (Hlt : Line.udf A B X < Line.W ^ 2)
    by (rewrite Hudf; unfold Line.W; lra).
  rewrite line_do_render_at. fold A B.
  unfold Spec.line_visits; fold A B.
  pose proof (line_capsule_scanned A B X Hne Hlt) as Hin.
  apply existsb_pixel_In in Hin. rewrite Hin.
  rewrite line_pixel_value_merge.
  destruct (Rlt_dec (Line.udf A B X) (Line.W ^ 2)); [| contradiction].
  now rewrite Hudf, smoothstep_at_edge.
Qed.

(** X20, an instance: the middle of the example segment. *)
Lemma line_render_on_segment_example :
  Line.do_render Examples.segment Examples.scene Examples.black (5, 0)%Z
  = Vec3.min (Examples.black (5, 0)%Z) (ts.vec3 0).
Proof.
  apply (line_render_on_segment Examples.segment Examples.scene
           Examples.black (5, 0)%Z (1 / 2) example_segment_distinct).
  - lra.
  - unfold Spec.segment_point, Vec2.of_int, Vec2.add, Vec2.scale, Vec2.sub;
      simpl; f_equal; lra.
Defined.

(** ** Writers of different kinds *)













